(** * Podcast-Archiver: a shallow embedding of [podcast_backup.ts]

    The program fetches a podcast RSS feed, turns every feed item into an
    episode record, and for every episode downloads the audio file and the
    cover image and writes a JSON sidecar.

    The embedding follows the TypeScript source function by function:
    [sanitizeFilename], [downloadFile], [parseRSSFeed] and [backupPodcast].
    JavaScript strings are sequences of UTF-16 code units, values are
    dynamically typed, and every [await]ed operation either completes or
    throws; the model keeps all three. *)

From Stdlib Require Import ZArith NArith List String Ascii Lia.
From Stdlib Require Import DecimalString DecimalPos.
From stdpp Require Import gmap list.
Import ListNotations.

Set Warnings "-register-all".
Local Open Scope N_scope.
Local Open Scope list_scope.

(** ** Strings

    A JavaScript string is a finite sequence of 16-bit code units.  Regular
    expressions without the [u] flag, [length], [split] and [replace] all
    work on code units, so this is the representation used here. *)

Abbreviation jsstring := (list N).

(** [str] turns an ASCII literal of the development into a JavaScript
    string. *)
Definition str (s : string) : jsstring :=
  map N_of_ascii (list_ascii_of_string s).

(** Decimal rendering of a natural number, as a template literal renders an
    integer-valued number. *)
Definition decimal (n : N) : jsstring :=
  str (NilZero.string_of_uint (N.to_uint n)).

Definition isLowerAlpha (c : N) : bool := (97 <=? c) && (c <=? 122).
Definition isUpperAlpha (c : N) : bool := (65 <=? c) && (c <=? 90).
Definition isDigit (c : N) : bool := (48 <=? c) && (c <=? 57).
Definition isAscii (c : N) : bool := c <? 128.

Definition underscore : N := 95.

(** [c] is matched by [/[^a-z0-9]/i].  The pattern has no [u] flag, so it
    is matched against single code units, and case-insensitive comparison
    canonicalises with [toUpperCase] but never maps a code unit at or above
    128 to one below 128: the only code units that are *not* matched are the
    ASCII letters of either case and the ASCII digits. *)
Definition matchesNonAlnum (c : N) : bool :=
  negb (isLowerAlpha c || isUpperAlpha c || isDigit c).

(** [filename.replace(/[^a-z0-9]/gi, '_')]: with the [g] flag every match,
    each one code unit long, is replaced. *)
Definition replaceNonAlnum (s : jsstring) : jsstring :=
  map (fun c => if matchesNonAlnum c then underscore else c) s.

Definition asciiLower (c : N) : N := if isUpperAlpha c then c + 32 else c.

(** ** Dynamically typed values *)

(** Numbers.  The program only produces numbers through [parseInt], and the
    XML layer only through reviving numeric text; the model keeps [NaN], the
    infinities and the integers.  A JavaScript number is a double: [Int z]
    stands for the double nearest to [z], which is [z] itself whenever its
    magnitude is at most 2^53, and the two zeros are not told apart. *)
Inductive jsnum :=
| NaN
| Int (z : Z)
| Infinity (negative : bool).

Inductive jsval :=
| JUndefined
| JNull
| JBool (b : bool)
| JNum (n : jsnum)
| JStr (s : jsstring)
| JObj (fields : list (jsstring * jsval))
| JArr (elems : list jsval).

(** What a [throw] carries: an [Error] object with its [message], or any
    other value, of which only the string form [String(error)] is ever
    looked at. *)
Inductive Thrown :=
| ErrorObject (message : jsstring)
| NonError (stringForm : jsstring).

(** [error instanceof Error ? error.message : String(error)] *)
Definition errorText (e : Thrown) : jsstring :=
  match e with
  | ErrorObject m => m
  | NonError s => s
  end.

Definition TypeError (msg : jsstring) : Thrown := ErrorObject msg.

(** Completion of an evaluation: a value, or a thrown exception. *)
Inductive result (A : Type) :=
| Ok (a : A)
| Throw (e : Thrown).
Arguments Ok {A} a.
Arguments Throw {A} e.

(** ** Operations of the language on values *)

(** Evaluation of a pure expression that may throw. *)
Definition rbind {A B} (r : result A) (k : A -> result B) : result B :=
  match r with
  | Ok a => k a
  | Throw e => Throw e
  end.

Notation "x <-? r ; k" := (rbind r (fun x => k))
  (at level 100, r at next level, right associativity).

Fixpoint mapR {A B} (f : A -> result B) (l : list A) : result (list B) :=
  match l with
  | [] => Ok []
  | x :: rest =>
      y <-? f x;
      ys <-? mapR f rest;
      Ok (y :: ys)
  end.

(** *** Doubles

    The double nearest to a natural number, ties going to the even
    mantissa of 53 bits; [None] when the number is beyond the largest
    double and rounds to infinity. *)
Definition nearestDouble (m : N) : option N :=
  let e := N.size m - 53 in
  let q := N.shiftr m e in
  let r := m - N.shiftl q e in
  let half := N.shiftl 1 (e - 1) in
  let q' := if (half <? r) || ((r =? half) && N.odd q) then q + 1 else q in
  let v := N.shiftl q' e in
  if v <? 2 ^ 1024 then Some v else None.

(** The number a sign and a magnitude denote. *)
Definition numberOf (negative : bool) (m : N) : jsnum :=
  match nearestDouble m with
  | Some v => Int (if negative then - Z.of_N v else Z.of_N v)
  | None => Infinity negative
  end.

(** *** [Number::toString]

    The digits printed for a double [x] are the shortest decimal numeral
    that rounds to [x], and of several the closest to [x].  [shortest]
    tries 1, 2, ... significant digits: with [k] digits the only candidates
    are the two multiples of [10 ^ (n - k)] around [x], where [x] has [n]
    digits. *)
Definition roundsTo (x v : N) : bool :=
  match nearestDouble v with
  | Some y => y =? x
  | None => false
  end.

Fixpoint shortest (fuel : nat) (k x n : N) : N :=
  match fuel with
  | O => x
  | S fuel' =>
      let p := 10 ^ (n - k) in
      let lo := (x / p) * p in
      let hi := lo + p in
      match roundsTo x lo, roundsTo x hi with
      | true, true =>
          if x - lo <? hi - x then lo
          else if hi - x <? x - lo then hi
          else if N.even (x / p) then lo else hi
      | true, false => lo
      | false, true => hi
      | false, false => shortest fuel' (k + 1) x n
      end
  end.

Definition digitCount (m : N) : N := N.of_nat (length (decimal m)).

(** Seventeen significant digits identify every double. *)
Definition shortestDecimal (x : N) : N := shortest 17 1 x (digitCount x).

Fixpoint dropZeros (reversed : jsstring) : jsstring :=
  match reversed with
  | 48 :: rest => dropZeros rest
  | _ => reversed
  end.

(** [d.ddde+n], for a numeral of more than 21 digits. *)
Definition exponentForm (v : N) : jsstring :=
  match rev (dropZeros (rev (decimal v))) with
  | [] => decimal v
  | [d] => [d] ++ str "e+" ++ decimal (digitCount v - 1)
  | d :: more => [d] ++ str "." ++ more ++ str "e+" ++ decimal (digitCount v - 1)
  end.

(** The text of a non-negative integer-valued number.  Up to 2^53 every
    integer is a double of its own and its digits are the shortest numeral;
    beyond, the shortest numeral is padded with zeros up to 21 digits and
    written with an exponent from there on. *)
Definition numberText (m : N) : jsstring :=
  if m <=? 2 ^ 53 then decimal m
  else
    match nearestDouble m with
    | Some x =>
        let v := shortestDecimal x in
        if v <? 10 ^ 21 then decimal v else exponentForm v
    | None => str "Infinity"
    end.

Definition decimalZ (z : Z) : jsstring :=
  if (z <? 0)%Z then str "-" ++ numberText (Z.abs_N z) else numberText (Z.abs_N z).

Definition numberString (n : jsnum) : jsstring :=
  match n with
  | NaN => str "NaN"
  | Int z => decimalZ z
  | Infinity false => str "Infinity"
  | Infinity true => str "-Infinity"
  end.

(** [k] is an own property of the object. *)
Definition hasOwn (k : jsstring) (fields : list (jsstring * jsval)) : bool :=
  existsb (fun field => bool_decide (k = fst field)) fields.

(** [ToString], as used by template literals and by [parseInt].  A plain
    object inherits [Object.prototype.toString]; one with a property
    [toString] of its own, which in a parsed document is never a function,
    has no way left to a primitive ([valueOf] returns the object), and the
    conversion throws.  An array joins the conversions of its elements. *)
Fixpoint ToString (v : jsval) : result jsstring :=
  match v with
  | JUndefined => Ok (str "undefined")
  | JNull => Ok (str "null")
  | JBool true => Ok (str "true")
  | JBool false => Ok (str "false")
  | JNum n => Ok (numberString n)
  | JStr s => Ok s
  | JObj fields =>
      if hasOwn (str "toString") fields
      then Throw (TypeError (str "Cannot convert object to primitive value"))
      else Ok (str "[object Object]")
  | JArr elems =>
      (fix joinElems (l : list jsval) : result jsstring :=
         match l with
         | [] => Ok []
         | x :: rest =>
             sx <-? match x with
                    | JUndefined | JNull => Ok []
                    | _ => ToString x
                    end;
             match rest with
             | [] => Ok sx
             | _ => more <-? joinElems rest; Ok (sx ++ str "," ++ more)
             end
         end) elems
  end.

(** The text of a value whose conversion completes. *)
Definition toString (v : jsval) : jsstring :=
  match ToString v with
  | Ok s => s
  | Throw _ => []
  end.

(** [ToBoolean] *)
Definition truthy (v : jsval) : bool :=
  match v with
  | JUndefined | JNull => false
  | JBool b => b
  | JNum NaN => false
  | JNum (Int z) => negb (z =? 0)%Z
  | JNum (Infinity _) => true
  | JStr s => negb (length s =? 0)%nat
  | JObj _ | JArr _ => true
  end.

Fixpoint lookupField (k : jsstring) (fields : list (jsstring * jsval)) : jsval :=
  match fields with
  | [] => JUndefined
  | (k', v) :: rest => if decide (k = k') then v else lookupField k rest
  end.

(** Property read [v[k]] (or [v.k]).  Reading from [undefined] or [null]
    throws.  On a primitive or an array the keys this program reads are not
    properties, with one exception that is never reached: [link] on a string
    is read only after [guid], whose ['#text'] read has thrown by then. *)
Definition get (v : jsval) (k : jsstring) : result jsval :=
  match v with
  | JUndefined =>
      Throw (TypeError (str "Cannot read properties of undefined (reading '" ++ k ++ str "')"))
  | JNull =>
      Throw (TypeError (str "Cannot read properties of null (reading '" ++ k ++ str "')"))
  | JObj fields => Ok (lookupField k fields)
  | _ => Ok JUndefined
  end.

(** Optional chaining [v?.[k]] *)
Definition getOpt (v : jsval) (k : jsstring) : result jsval :=
  match v with
  | JUndefined | JNull => Ok JUndefined
  | _ => get v k
  end.

(** [a || b] on values already evaluated *)
Definition orElse (a b : jsval) : jsval := if truthy a then a else b.

(** *** [parseInt] *)

Definition isWhiteSpace (c : N) : bool :=
  (c =? 9) || (c =? 10) || (c =? 11) || (c =? 12) || (c =? 13) || (c =? 32)
  || (c =? 160) || (c =? 5760) || ((8192 <=? c) && (c <=? 8202))
  || (c =? 8232) || (c =? 8233) || (c =? 8239) || (c =? 8287)
  || (c =? 12288) || (c =? 65279).

Fixpoint trimStart (s : jsstring) : jsstring :=
  match s with
  | c :: rest => if isWhiteSpace c then trimStart rest else s
  | [] => []
  end.

Definition digitValue (radix c : N) : option N :=
  let v := if isDigit c then Some (c - 48)
           else if isLowerAlpha c then Some (c - 87)
           else if isUpperAlpha c then Some (c - 55)
           else None in
  match v with
  | Some d => if d <? radix then Some d else None
  | None => None
  end.

Fixpoint leadingDigits (radix : N) (s : jsstring) : list N :=
  match s with
  | c :: rest =>
      match digitValue radix c with
      | Some d => d :: leadingDigits radix rest
      | None => []
      end
  | [] => []
  end.

Definition digitsValue (radix : N) (ds : list N) : N :=
  fold_left (fun acc d => acc * radix + d) ds 0.

(** An optional sign: whether it is a minus, and the rest. *)
Definition stripSign (s : jsstring) : bool * jsstring :=
  match s with
  | c :: rest =>
      if c =? 45 then (true, rest)
      else if c =? 43 then (false, rest)
      else (false, s)
  | [] => (false, s)
  end.

(** An optional [0x] or [0X]: the radix, and the rest. *)
Definition stripRadixPrefix (s : jsstring) : N * jsstring :=
  match s with
  | c :: x :: rest =>
      if (c =? 48) && ((x =? 120) || (x =? 88)) then (16, rest) else (10, s)
  | _ => (10, s)
  end.

(** [parseInt(s)] with no radix argument: leading white space is skipped, a
    sign is read, [0x] selects radix 16, and the longest run of digits is
    the value; no digit at all gives [NaN].  The result is the double
    nearest to the mathematical integer, as V8 computes it (the language
    lets an implementation ignore decimal digits after the twentieth). *)
Definition parseIntString (s : jsstring) : jsnum :=
  let '(negative, s2) := stripSign (trimStart s) in
  let '(radix, s3) := stripRadixPrefix s2 in
  match leadingDigits radix s3 with
  | [] => NaN
  | ds => numberOf negative (digitsValue radix ds)
  end.

(** [parseInt(v)]: the argument is converted to a string first, which may
    throw. *)
Definition parseInt (v : jsval) : result jsnum :=
  s <-? ToString v;
  Ok (parseIntString s).

(** [v ? parseInt(v) : undefined] *)
Definition optionalInt (v : jsval) : result (option jsnum) :=
  if truthy v then n <-? parseInt v; Ok (Some n) else Ok None.

(** A template literal that ends in [${v}]. *)
Definition template (prefix : jsstring) (v : jsval) : result jsstring :=
  s <-? ToString v;
  Ok (prefix ++ s).

(** *** [split] and [pop] *)

(** [s.split(sep)] for a one-character separator: never empty. *)
Fixpoint split (sep : N) (s : jsstring) : list jsstring :=
  match s with
  | [] => [[]]
  | c :: rest =>
      if c =? sep then [] :: split sep rest
      else match split sep rest with
           | piece :: pieces => (c :: piece) :: pieces
           | [] => [[c]]
           end
  end.

Definition dot : N := 46.

(** ** The sanitizer's contract, in the words of the specification *)

(** Every character outside [[a-z0-9]], compared case-insensitively,
    becomes ['_'], and the result is lower case. *)
Definition specSanitizeChar (c : N) : N :=
  if isLowerAlpha c || isDigit c then c
  else if isUpperAlpha c then c + 32
  else underscore.

Definition specSanitize (s : jsstring) : jsstring := map specSanitizeChar s.

(** [^[a-z0-9_]*$] *)
Definition isSafeChar (c : N) : bool :=
  isLowerAlpha c || isDigit c || (c =? underscore).

Definition matchesSafePattern (s : jsstring) : bool := forallb isSafeChar s.

(** ** The host: runtime, libraries and the outside world

    Everything the program imports or calls but does not define. *)

Record Response := {
  ok : bool;
  status : N;
  statusText : jsstring;
  arrayBuffer : result (list N);   (* [await response.arrayBuffer()], as bytes *)
  text : result jsstring           (* [await response.text()] *)
}.

Inductive FileData :=
| Bytes (b : list N)
| Text (s : jsstring).

(** Observable effects, in the order in which they happen.  A write or a
    directory creation is recorded when it succeeds. *)
Inductive Event :=
| EvEnsureDir (dir : jsstring)
| EvFetch (url : jsval)
| EvWriteFile (path : jsstring) (data : list N)
| EvWriteTextFile (path : jsstring) (data : jsstring)
| EvLog (args : list jsstring)
| EvError (args : list jsstring).

Record Host := {
  (** [String.prototype.toLowerCase] on a string that has a code unit
      outside ASCII (Unicode case tables). *)
  unicodeLower : jsstring -> jsstring;
  (** [join] of std/path. *)
  join : jsstring -> jsstring -> jsstring;
  (** [parse] of x/xml: the nested mapping, or a syntax error. *)
  parseXml : jsstring -> result jsval;
  (** [JSON.stringify(value, null, 2)]. *)
  JSON_stringify : jsval -> jsstring;
  (** [fetch]: rejects, or resolves to a response.  The answer may depend
      on everything that happened before. *)
  fetchOutcome : list Event -> jsval -> result Response;
  (** Why [Deno.writeFile], [Deno.writeTextFile] or [ensureDir] rejects, if
      it does. *)
  writeFileError : list Event -> jsstring -> option Thrown;
  writeTextFileError : list Event -> jsstring -> option Thrown;
  ensureDirError : list Event -> jsstring -> option Thrown
}.

(** The state threaded through a run: the effects so far, and for every
    path the contents last written to it successfully.  What a rejected
    write leaves behind is not part of the model. *)
Record World := {
  trace : list Event;
  written : gmap jsstring FileData
}.

(** A computation: it runs in a world, completes or throws, and leaves a
    world. *)
Definition M (A : Type) : Type := World -> result A * World.

Definition ret {A} (a : A) : M A := fun w => (Ok a, w).

Definition throw {A} (e : Thrown) : M A := fun w => (Throw e, w).

Definition bind {A B} (m : M A) (k : A -> M B) : M B :=
  fun w =>
    match m w with
    | (Ok a, w') => k a w'
    | (Throw e, w') => (Throw e, w')
    end.

Notation "x <- m ;; k" := (bind m (fun x => k))
  (at level 100, m at next level, right associativity).
Notation "m ;; k" := (bind m (fun _ => k))
  (at level 100, right associativity).

(** [try { body } catch (error) { handler }] *)
Definition tryCatch {A} (body : M A) (handler : Thrown -> M A) : M A :=
  fun w =>
    match body w with
    | (Ok a, w') => (Ok a, w')
    | (Throw e, w') => handler e w'
    end.

Definition liftR {A} (r : result A) : M A := fun w => (r, w).

Definition emit (e : Event) : M unit :=
  fun w => (Ok tt, {| trace := trace w ++ [e]; written := written w |}).

(** [for (const x of xs) body] *)
Fixpoint forEach {A} (xs : list A) (body : A -> M unit) : M unit :=
  match xs with
  | [] => ret tt
  | x :: rest => body x ;; forEach rest body
  end.

(** ** The program's types *)

Record DownloadResult := {
  success : bool;
  error : option jsstring
}.

(** [interface PodcastEpisode].  Interfaces are erased at run time: the
    string fields hold whatever value the XML layer gave, and the optional
    number fields hold a number or [undefined] ([None]). *)
Record PodcastEpisode := {
  title : jsval;
  guid : jsval;
  pubDate : jsval;
  duration : jsval;
  description : jsval;
  link : jsval;
  imageUrl : jsval;
  audioUrl : jsval;
  season : option jsnum;
  episode : option jsnum
}.

Definition optionalNumber (n : option jsnum) : jsval :=
  match n with
  | Some x => JNum x
  | None => JUndefined
  end.

(** The episode as the object literal builds it, keys in source order. *)
Definition episodeObject (e : PodcastEpisode) : jsval :=
  JObj [ (str "title", title e);
         (str "guid", guid e);
         (str "pubDate", pubDate e);
         (str "duration", duration e);
         (str "description", description e);
         (str "link", link e);
         (str "imageUrl", imageUrl e);
         (str "audioUrl", audioUrl e);
         (str "season", optionalNumber (season e));
         (str "episode", optionalNumber (episode e)) ].

(** [`${x}`] of an optional string *)
Definition optionalText (s : option jsstring) : jsstring :=
  match s with
  | Some t => t
  | None => str "undefined"
  end.

Section Program.

Variable host : Host.

(** ** Host operations as computations *)

Definition consoleLog (args : list jsstring) : M unit := emit (EvLog args).

Definition consoleError (args : list jsstring) : M unit := emit (EvError args).

Definition fetch (url : jsval) : M Response :=
  fun w =>
    (fetchOutcome host (trace w) url,
     {| trace := trace w ++ [EvFetch url]; written := written w |}).

Definition Deno_writeFile (path : jsstring) (data : list N) : M unit :=
  fun w =>
    match writeFileError host (trace w) path with
    | Some e => (Throw e, w)
    | None =>
        (Ok tt, {| trace := trace w ++ [EvWriteFile path data];
                   written := <[path := Bytes data]> (written w) |})
    end.

Definition Deno_writeTextFile (path : jsstring) (data : jsstring) : M unit :=
  fun w =>
    match writeTextFileError host (trace w) path with
    | Some e => (Throw e, w)
    | None =>
        (Ok tt, {| trace := trace w ++ [EvWriteTextFile path data];
                   written := <[path := Text data]> (written w) |})
    end.

Definition ensureDir (dir : jsstring) : M unit :=
  fun w =>
    match ensureDirError host (trace w) dir with
    | Some e => (Throw e, w)
    | None => (Ok tt, {| trace := trace w ++ [EvEnsureDir dir]; written := written w |})
    end.

(** ** [sanitizeFilename] *)

(** [String.prototype.toLowerCase].  On a string of ASCII code units it
    lowers the capital letters and keeps everything else. *)
Definition toLowerCase (s : jsstring) : jsstring :=
  if forallb isAscii s then map asciiLower s else unicodeLower host s.

Definition sanitizeFilename (filename : jsstring) : jsstring :=
  toLowerCase (replaceNonAlnum filename).

(** The call [sanitizeFilename(v)] on a value of any type: [filename.replace]
    exists on strings only. *)
Definition callSanitizeFilename (v : jsval) : result jsstring :=
  match v with
  | JStr s => Ok (sanitizeFilename s)
  | JUndefined =>
      Throw (TypeError (str "Cannot read properties of undefined (reading 'replace')"))
  | JNull =>
      Throw (TypeError (str "Cannot read properties of null (reading 'replace')"))
  | _ => Throw (TypeError (str "filename.replace is not a function"))
  end.

(** ** [downloadFile] *)

Definition downloadFile (url : jsval) (filepath : jsstring) : M DownloadResult :=
  tryCatch
    (response <- fetch url ;;
     (if negb (ok response)
      then throw (ErrorObject (str "Failed to download: " ++ decimal (status response)
                               ++ str " " ++ statusText response))
      else ret tt) ;;
     fileData <- liftR (arrayBuffer response) ;;
     Deno_writeFile filepath fileData ;;
     ret {| success := true; error := None |})
    (fun error => ret {| success := false; error := Some (errorText error) |}).

(** ** [parseRSSFeed] *)

(** The callback of [items.map]: fields are evaluated in source order. *)
Definition itemToEpisode (item : jsval) : result PodcastEpisode :=
  title_ <-? get item (str "title");
  guidNode <-? get item (str "guid");
  guidText <-? get guidNode (str "#text");
  pubDate_ <-? get item (str "pubDate");
  duration_ <-? get item (str "itunes:duration");
  description_ <-? get item (str "description");
  link_ <-? get item (str "link");
  image <-? get item (str "itunes:image");
  href <-? getOpt image (str "@href");
  enclosure <-? get item (str "enclosure");
  url <-? get enclosure (str "@url");
  seasonNode <-? get item (str "itunes:season");
  season_ <-? optionalInt seasonNode;
  episodeNode <-? get item (str "itunes:episode");
  episode_ <-? optionalInt episodeNode;
  Ok {| title := title_;
        guid := orElse guidText guidNode;
        pubDate := pubDate_;
        duration := duration_;
        description := description_;
        link := link_;
        imageUrl := orElse href (JStr []);
        audioUrl := url;
        season := season_;
        episode := episode_ |}.

(** [items.map(callback)]: only an array has [map]. *)
Definition callMap {A} (items : jsval) (callback : jsval -> result A) : result (list A) :=
  match items with
  | JArr elems => mapR callback elems
  | JUndefined =>
      Throw (TypeError (str "Cannot read properties of undefined (reading 'map')"))
  | JNull =>
      Throw (TypeError (str "Cannot read properties of null (reading 'map')"))
  | _ => Throw (TypeError (str "items.map is not a function"))
  end.

Definition parseRSSFeed (xmlContent : jsstring) : result (list PodcastEpisode) :=
  doc <-? parseXml host xmlContent;
  rss <-? get doc (str "rss");
  channel <-? get rss (str "channel");
  items <-? get channel (str "item");
  callMap items itemToEpisode.

(** ** [backupPodcast] *)

(** [url.split('.').pop() || 'jpg'] on a string: the last piece, or ['jpg']
    when that piece is empty. *)
Definition extensionOf (url : jsstring) : jsstring :=
  match last (split dot url) with
  | Some piece => if (length piece =? 0)%nat then str "jpg" else piece
  | None => str "jpg"
  end.

(** [episode.imageUrl.split('.').pop() || 'jpg'], evaluated when
    [episode.imageUrl] is truthy: only a string has [split]. *)
Definition imageExtension (url : jsval) : result jsstring :=
  match url with
  | JStr s => Ok (extensionOf s)
  | _ => Throw (TypeError (str "episode.imageUrl.split is not a function"))
  end.

Definition outcomeWord (r : DownloadResult) : jsstring :=
  if success r then str "successful" else str "failed".

(** The block under [// Download audio file]. *)
Definition audioStep (audioDir baseFilename : jsstring) (ep : PodcastEpisode) : M unit :=
  if truthy (audioUrl ep) then
    let audioPath := join host audioDir (baseFilename ++ str ".mp3") in
    audioResult <- downloadFile (audioUrl ep) audioPath ;;
    line <- liftR (template (str "Audio download " ++ outcomeWord audioResult ++ str ": ")
                     (title ep)) ;;
    consoleLog [line] ;;
    if negb (success audioResult)
    then consoleError [str "Error downloading audio: " ++ optionalText (error audioResult)]
    else ret tt
  else ret tt.

(** The block under [// Download image file]. *)
Definition imageStep (imageDir baseFilename : jsstring) (ep : PodcastEpisode) : M unit :=
  if truthy (imageUrl ep) then
    imageExt <- liftR (imageExtension (imageUrl ep)) ;;
    let imagePath := join host imageDir (baseFilename ++ str "." ++ imageExt) in
    imageResult <- downloadFile (imageUrl ep) imagePath ;;
    line <- liftR (template (str "Image download " ++ outcomeWord imageResult ++ str ": ")
                     (title ep)) ;;
    consoleLog [line] ;;
    if negb (success imageResult)
    then consoleError [str "Error downloading image: " ++ optionalText (error imageResult)]
    else ret tt
  else ret tt.

(** The block under [// Save episode metadata as JSON]. *)
Definition metadataStep (jsonDir baseFilename : jsstring) (ep : PodcastEpisode) : M unit :=
  let jsonPath := join host jsonDir (baseFilename ++ str ".json") in
  Deno_writeTextFile jsonPath (JSON_stringify host (episodeObject ep)) ;;
  line <- liftR (template (str "JSON metadata saved: ") (title ep)) ;;
  consoleLog [line].

(** The body of the [for] loop. *)
Definition processEpisode (audioDir imageDir jsonDir : jsstring) (ep : PodcastEpisode)
  : M unit :=
  line <- liftR (template (str "Processing episode: ") (title ep)) ;;
  consoleLog [line] ;;
  baseFilename <- liftR (callSanitizeFilename (title ep)) ;;
  audioStep audioDir baseFilename ep ;;
  imageStep imageDir baseFilename ep ;;
  metadataStep jsonDir baseFilename ep.

Definition completionMessage : jsstring := str "Backup completed successfully!".

Definition backupPodcast (rssUrl outputDir : jsstring) : M unit :=
  tryCatch
    (let audioDir := join host outputDir (str "audio") in
     let imageDir := join host outputDir (str "images") in
     let jsonDir := join host outputDir (str "json") in
     ensureDir audioDir ;;
     ensureDir imageDir ;;
     ensureDir jsonDir ;;
     response <- fetch (JStr rssUrl) ;;
     xmlContent <- liftR (text response) ;;
     episodes <- liftR (parseRSSFeed xmlContent) ;;
     forEach episodes (processEpisode audioDir imageDir jsonDir) ;;
     consoleLog [completionMessage])
    (fun error => consoleError [str "Error during backup:"; errorText error]).

End Program.

(** ** Notions used to state the properties *)

(** [t] occurs in [s]. *)
Definition contains (s t : jsstring) : Prop :=
  exists before after : jsstring, s = before ++ t ++ after.

Definition downloadFailed (msg : jsstring) : DownloadResult :=
  {| success := false; error := Some msg |}.

Definition downloadSucceeded : DownloadResult :=
  {| success := true; error := None |}.

Definition logged (w : World) (e : Event) : World :=
  {| trace := trace w ++ [e]; written := written w |}.

(** An exception raised by the network or by the file system while
    [downloadFile host url path] runs in world [w]: the request is rejected,
    reading the body is rejected, or the write is rejected. *)
Inductive ioException (host : Host) (w : World) (url : jsval) (path : jsstring)
  : Thrown -> Prop :=
| FetchRejected (e : Thrown) :
    fetchOutcome host (trace w) url = Throw e ->
    ioException host w url path e
| BodyRejected (response : Response) (e : Thrown) :
    fetchOutcome host (trace w) url = Ok response ->
    ok response = true ->
    arrayBuffer response = Throw e ->
    ioException host w url path e
| WriteRejected (response : Response) (data : list N) (e : Thrown) :
    fetchOutcome host (trace w) url = Ok response ->
    ok response = true ->
    arrayBuffer response = Ok data ->
    writeFileError host (trace w ++ [EvFetch url]) path = Some e ->
    ioException host w url path e.

(** Modelled from the spec: the XML-to-object layer (x/xml, not part of
    this repository) groups the children of one tag name.  No child leaves
    the key undefined, a single child is stored as it is, and only repeated
    children become an array ("single-item-vs-list inconsistency from
    generic XML-to-object parsing"). *)
Definition childrenShape (nodes : list jsval) : jsval :=
  match nodes with
  | [] => JUndefined
  | [node] => node
  | _ => JArr nodes
  end.

(** [doc] is the parsed form of a feed whose channel holds the item nodes
    [items], in document order. *)
Definition feedItems (doc : jsval) (items : list jsval) : Prop :=
  exists rss channel : jsval,
    get doc (str "rss") = Ok rss
    /\ get rss (str "channel") = Ok channel
    /\ get channel (str "item") = Ok (childrenShape items).

Definition audioDirOf (host : Host) (outputDir : jsstring) : jsstring :=
  join host outputDir (str "audio").
Definition imageDirOf (host : Host) (outputDir : jsstring) : jsstring :=
  join host outputDir (str "images").
Definition jsonDirOf (host : Host) (outputDir : jsstring) : jsstring :=
  join host outputDir (str "json").

(** The effects of a run up to and including the request for the feed. *)
Definition setupEvents (host : Host) (rssUrl outputDir : jsstring) : list Event :=
  [ EvEnsureDir (audioDirOf host outputDir);
    EvEnsureDir (imageDirOf host outputDir);
    EvEnsureDir (jsonDirOf host outputDir);
    EvFetch (JStr rssUrl) ].

(** The three directories can be created, in a run started in world [w]. *)
Definition directoriesReady (host : Host) (w : World) (outputDir : jsstring) : Prop :=
  ensureDirError host (trace w) (audioDirOf host outputDir) = None
  /\ ensureDirError host (trace w ++ [EvEnsureDir (audioDirOf host outputDir)])
       (imageDirOf host outputDir) = None
  /\ ensureDirError host
       (trace w ++ [EvEnsureDir (audioDirOf host outputDir);
                    EvEnsureDir (imageDirOf host outputDir)])
       (jsonDirOf host outputDir) = None.

(** What the request for the feed resolves to, in a run started in [w]. *)
Definition feedResponse (host : Host) (w : World) (rssUrl outputDir : jsstring)
  : result Response :=
  fetchOutcome host
    (trace w ++ [EvEnsureDir (audioDirOf host outputDir);
                 EvEnsureDir (imageDirOf host outputDir);
                 EvEnsureDir (jsonDirOf host outputDir)])
    (JStr rssUrl).

(** The feed text arrives: the directories are there, the request resolves
    and its body reads as [xml]. *)
Definition feedDelivered (host : Host) (w : World) (rssUrl outputDir xml : jsstring)
  : Prop :=
  directoriesReady host w outputDir
  /\ exists response : Response,
       feedResponse host w rssUrl outputDir = Ok response
       /\ text response = Ok xml.

(** A failure of the feed stage with exception [e]: the request is
    rejected, reading its text is rejected, or parsing throws. *)
Inductive feedFailure (host : Host) (w : World) (rssUrl outputDir : jsstring)
  : Thrown -> Prop :=
| FeedFetchFails (e : Thrown) :
    feedResponse host w rssUrl outputDir = Throw e ->
    feedFailure host w rssUrl outputDir e
| FeedTextFails (response : Response) (e : Thrown) :
    feedResponse host w rssUrl outputDir = Ok response ->
    text response = Throw e ->
    feedFailure host w rssUrl outputDir e
| FeedParseFails (response : Response) (xml : jsstring) (e : Thrown) :
    feedResponse host w rssUrl outputDir = Ok response ->
    text response = Ok xml ->
    parseRSSFeed host xml = Throw e ->
    feedFailure host w rssUrl outputDir e.

Definition fatalLog (e : Thrown) : Event :=
  EvError [str "Error during backup:"; errorText e].

Definition extend (w : World) (events : list Event) : World :=
  {| trace := trace w ++ events; written := written w |}.

(** The paths an episode's artifacts go to.  They are derived from the
    title and the image URL, which the interface declares to be strings. *)
Definition baseFilenameOf (host : Host) (ep : PodcastEpisode) : jsstring :=
  match title ep with
  | JStr t => sanitizeFilename host t
  | _ => []
  end.


Definition imagePathOf (host : Host) (outputDir : jsstring) (ep : PodcastEpisode)
  : jsstring :=
  join host (imageDirOf host outputDir)
    (baseFilenameOf host ep ++ str "."
     ++ match imageUrl ep with JStr s => extensionOf s | _ => [] end).

Definition jsonPathOf (host : Host) (outputDir : jsstring) (ep : PodcastEpisode)
  : jsstring :=
  join host (jsonDirOf host outputDir) (baseFilenameOf host ep ++ str ".json").

(** The successful write of an episode's JSON sidecar. *)
Definition metadataWrite (host : Host) (outputDir : jsstring) (ep : PodcastEpisode)
  : Event :=
  EvWriteTextFile (jsonPathOf host outputDir ep) (JSON_stringify host (episodeObject ep)).

Definition processingLog (ep : PodcastEpisode) : Event :=
  EvLog [str "Processing episode: " ++ toString (title ep)].

Definition savedLog (ep : PodcastEpisode) : Event :=
  EvLog [str "JSON metadata saved: " ++ toString (title ep)].

(** Every sub-step of an episode has run among [events]: the episode was
    announced, its audio and its image were requested when there is a URL,
    and its JSON sidecar was written. *)
Definition allStepsRun (host : Host) (outputDir : jsstring) (ep : PodcastEpisode)
    (events : list Event) : Prop :=
  In (processingLog ep) events
  /\ (truthy (audioUrl ep) = true -> In (EvFetch (audioUrl ep)) events)
  /\ (truthy (imageUrl ep) = true -> In (EvFetch (imageUrl ep)) events)
  /\ In (metadataWrite host outputDir ep) events.

(** The title and the image URL are strings, as [PodcastEpisode] declares. *)
Definition hasTextFields (ep : PodcastEpisode) : bool :=
  match title ep, imageUrl ep with
  | JStr _, JStr _ => true
  | _, _ => false
  end.

Definition isTextWrite (e : Event) : bool :=
  match e with
  | EvWriteTextFile _ _ => true
  | _ => false
  end.

(** The JSON sidecar writes among some events, in order. *)
Definition textWrites (events : list Event) : list Event := filter isTextWrite events.

(** The effects a download of [url] to [path] and its report can have: the
    request, a write of some bytes to [path], and console lines. *)
Inductive reportEvent (url : jsval) (path : jsstring) : Event -> Prop :=
| ReportFetch : reportEvent url path (EvFetch url)
| ReportWrite (data : list N) : reportEvent url path (EvWriteFile path data)
| ReportLog (line : jsstring) : reportEvent url path (EvLog [line])
| ReportError (line : jsstring) : reportEvent url path (EvError [line]).


(** [Deno.writeTextFile] never rejects. *)
Definition acceptsTextWrites (host : Host) : Prop :=
  forall (history : list Event) (path : jsstring),
    writeTextFileError host history path = None.


Definition isDecimalDigits (s : jsstring) : bool := forallb isDigit s.

(** The number a string of decimal digits denotes. *)
Definition decimalValue (s : jsstring) : N :=
  digitsValue 10 (map (fun c => c - 48) s).

(** The digits of a decimal numeral, most significant first. *)
Fixpoint uintDigits (d : Decimal.uint) : list N :=
  match d with
  | Decimal.Nil => []
  | Decimal.D0 r => 0 :: uintDigits r
  | Decimal.D1 r => 1 :: uintDigits r
  | Decimal.D2 r => 2 :: uintDigits r
  | Decimal.D3 r => 3 :: uintDigits r
  | Decimal.D4 r => 4 :: uintDigits r
  | Decimal.D5 r => 5 :: uintDigits r
  | Decimal.D6 r => 6 :: uintDigits r
  | Decimal.D7 r => 7 :: uintDigits r
  | Decimal.D8 r => 8 :: uintDigits r
  | Decimal.D9 r => 9 :: uintDigits r
  end.

(** The value of a list of digits, least significant first. *)
Definition littleEndianValue (ds : list N) : N :=
  fold_right (fun d acc => d + 10 * acc) 0 ds.

(** ** Concrete hosts and feeds *)

Definition emptyWorld : World := {| trace := []; written := ∅ |}.

(** A world in which an earlier run has left a file behind. *)
Definition staleWorld : World :=
  {| trace := [];
     written := {[ str "out/audio/a.mp3" := Text (str "old") ]} |}.

(** A JSON printer for the concrete runs below. *)
Definition hexDigit (n : N) : N := if n <? 10 then 48 + n else 87 + n.

Definition jsonEscape (c : N) : jsstring :=
  if c =? 34 then [92; 34]
  else if c =? 92 then [92; 92]
  else if c =? 8 then [92; 98]
  else if c =? 9 then [92; 116]
  else if c =? 10 then [92; 110]
  else if c =? 12 then [92; 102]
  else if c =? 13 then [92; 114]
  else if c <? 32 then [92; 117; 48; 48; hexDigit (c / 16); hexDigit (c mod 16)]
  else [c].

Definition jsonQuote (s : jsstring) : jsstring :=
  [34] ++ concat (map jsonEscape s) ++ [34].

Fixpoint jsonText (indent : jsstring) (v : jsval) : jsstring :=
  let inner := indent ++ str "  " in
  match v with
  | JUndefined | JNull | JNum NaN | JNum (Infinity _) => str "null"
  | JBool true => str "true"
  | JBool false => str "false"
  | JNum (Int z) => decimalZ z
  | JStr s => jsonQuote s
  | JArr elems =>
      match elems with
      | [] => str "[]"
      | _ =>
          str "["
          ++ (fix items (l : list jsval) (first : bool) : jsstring :=
                match l with
                | [] => []
                | x :: rest =>
                    (if first then [] else str ",") ++ [10] ++ inner
                    ++ jsonText inner x ++ items rest false
                end) elems true
          ++ [10] ++ indent ++ str "]"
      end
  | JObj fields =>
      let members :=
        (fix members (l : list (jsstring * jsval)) (first : bool) : jsstring :=
           match l with
           | [] => []
           | (k, JUndefined) :: rest => members rest first
           | (k, x) :: rest =>
               (if first then [] else str ",") ++ [10] ++ inner
               ++ jsonQuote k ++ str ": " ++ jsonText inner x ++ members rest false
           end) fields true in
      match members with
      | [] => str "{}"
      | _ => str "{" ++ members ++ [10] ++ indent ++ str "}"
      end
  end.

(** A host for concrete runs: the XML layer yields [doc], the network
    answers by [serve], and [Deno.writeTextFile] rejects by [textWriteError];
    everything else succeeds. *)
Definition simpleHost (doc : result jsval) (serve : jsval -> result Response)
    (textWriteError : jsstring -> option Thrown) : Host :=
  {| unicodeLower := fun s => s;
     join := fun dir name => dir ++ str "/" ++ name;
     parseXml := fun _ => doc;
     JSON_stringify := jsonText [];
     fetchOutcome := fun _ url => serve url;
     writeFileError := fun _ _ => None;
     writeTextFileError := fun _ path => textWriteError path;
     ensureDirError := fun _ _ => None |}.

Definition notFoundResponse : Response :=
  {| ok := false;
     status := 404;
     statusText := str "Not Found";
     arrayBuffer := Ok [];
     text := Ok (str "not found") |}.

Definition okResponse (body : list N) : Response :=
  {| ok := true;
     status := 200;
     statusText := str "OK";
     arrayBuffer := Ok body;
     text := Ok body |}.

Definition noDocument : result jsval := Throw (ErrorObject (str "no document")).

(** A host whose network is down. *)
Definition offlineHost : Host :=
  simpleHost noDocument
    (fun _ => Throw (ErrorObject (str "network unreachable"))) (fun _ => None).

(** A host that answers every request with 404. *)
Definition notFoundHost : Host :=
  simpleHost noDocument (fun _ => Ok notFoundResponse) (fun _ => None).

(** A host that serves the bytes [1; 2; 3] at every URL. *)
Definition servingHost : Host :=
  simpleHost noDocument (fun _ => Ok (okResponse [1; 2; 3])) (fun _ => None).

(** A host that serves the bytes [1; 2; 3] at every URL, on a file system
    that takes no file. *)
Definition readOnlyHost : Host :=
  {| unicodeLower := fun s => s;
     join := fun dir name => dir ++ str "/" ++ name;
     parseXml := fun _ => noDocument;
     JSON_stringify := jsonText [];
     fetchOutcome := fun _ _ => Ok (okResponse [1; 2; 3]);
     writeFileError := fun _ _ => Some (ErrorObject (str "Permission denied"));
     writeTextFileError := fun _ _ => Some (ErrorObject (str "Permission denied"));
     ensureDirError := fun _ _ => None |}.

(** A feed item as the XML layer delivers it. *)
Definition feedItem (titleText audio : string) (more : list (jsstring * jsval)) : jsval :=
  JObj ([ (str "title", JStr (str titleText));
          (str "guid", JObj [ (str "@isPermaLink", JBool false);
                              (str "#text", JStr (str titleText)) ]);
          (str "pubDate", JStr (str "Mon, 01 Jan 2024 00:00:00 GMT"));
          (str "itunes:duration", JStr (str "00:10:00"));
          (str "description", JStr (str "About this episode"));
          (str "link", JStr (str "https://example.org/"));
          (str "enclosure", JObj [ (str "@url", JStr (str audio));
                                   (str "@type", JStr (str "audio/mpeg")) ]) ]
        ++ more).

Definition feedDocument (items : list jsval) : jsval :=
  JObj [ (str "rss",
          JObj [ (str "@version", JStr (str "2.0"));
                 (str "channel",
                  JObj [ (str "title", JStr (str "A podcast"));
                         (str "item", childrenShape items) ]) ]) ].

(** A feed with exactly one item. *)
Definition pilotItem : jsval := feedItem "Pilot" "https://example.org/pilot.mp3" [].

Definition singleItemHost : Host :=
  simpleHost (Ok (feedDocument [pilotItem]))
    (fun _ => Ok (okResponse [1; 2; 3])) (fun _ => None).

(** A feed of two items; the audio of the first one is missing. *)
Definition firstItem : jsval := feedItem "First" "https://example.org/1.mp3" [].
Definition secondItem : jsval := feedItem "Second" "https://example.org/2.mp3" [].

Definition serveSecondOnly (url : jsval) : result Response :=
  match url with
  | JStr s =>
      if decide (s = str "https://example.org/1.mp3")
      then Ok notFoundResponse
      else Ok (okResponse [1; 2; 3])
  | _ => Throw (ErrorObject (str "Invalid URL"))
  end.

Definition twoItemHost : Host :=
  simpleHost (Ok (feedDocument [firstItem; secondItem])) serveSecondOnly (fun _ => None).

(** The episodes of that feed. *)
Definition episodeOfItem (titleText audio : string) : PodcastEpisode :=
  {| title := JStr (str titleText);
     guid := JStr (str titleText);
     pubDate := JStr (str "Mon, 01 Jan 2024 00:00:00 GMT");
     duration := JStr (str "00:10:00");
     description := JStr (str "About this episode");
     link := JStr (str "https://example.org/");
     imageUrl := JStr [];
     audioUrl := JStr (str audio);
     season := None;
     episode := None |}.

Definition firstEpisode : PodcastEpisode :=
  episodeOfItem "First" "https://example.org/1.mp3".
Definition secondEpisode : PodcastEpisode :=
  episodeOfItem "Second" "https://example.org/2.mp3".

Definition twoEpisodes : list PodcastEpisode := [firstEpisode; secondEpisode].


(** The same feed on a host where only the sidecar of the first episode
    cannot be written. *)
Definition lockedSidecarHost : Host :=
  simpleHost (Ok (feedDocument [firstItem; secondItem])) serveSecondOnly
    (fun path =>
       if decide (path = str "out/json/first.json")
       then Some (ErrorObject (str "Permission denied"))
       else None).

(** A feed of two items, the second of which has no enclosure. *)
Definition noEnclosureFields : list (jsstring * jsval) :=
  [ (str "title", JStr (str "Teaser"));
    (str "guid", JStr (str "teaser"));
    (str "pubDate", JStr (str "Tue, 02 Jan 2024 00:00:00 GMT"));
    (str "description", JStr (str "Coming soon")) ].

Definition brokenFeedHost : Host :=
  simpleHost (Ok (feedDocument [firstItem; JObj noEnclosureFields]))
    (fun _ => Ok (okResponse [1; 2; 3])) (fun _ => None).

(** An episode whose image URL has no dot. *)
Definition coverEpisode : PodcastEpisode :=
  {| title := JStr (str "Pilot");
     guid := JStr (str "pilot");
     pubDate := JStr (str "Mon, 01 Jan 2024 00:00:00 GMT");
     duration := JStr (str "00:10:00");
     description := JStr (str "About this episode");
     link := JStr (str "https://example.org/");
     imageUrl := JStr (str "http://localhost/cover");
     audioUrl := JStr (str "https://example.org/pilot.mp3");
     season := None;
     episode := None |}.

(** An item whose season element holds text that is no number. *)
Definition bonusItem : jsval :=
  feedItem "Bonus" "https://example.org/bonus.mp3"
    [ (str "itunes:season", JStr (str "abc")) ].

(** An item of season 2, episode 07, with the season revived as a number
    and the episode kept as text. *)
Definition numberedItem : jsval :=
  feedItem "Numbered" "https://example.org/numbered.mp3"
    [ (str "itunes:season", JNum (Int 2));
      (str "itunes:episode", JStr (str "07")) ].


(** ** Further notions *)

(** Two code units that [sanitizeFilename] cannot tell apart: both are
    replaced, or they are the same letter or digit up to case. *)
Definition sameAfterSanitizing (c d : N) : Prop :=
  matchesNonAlnum c = matchesNonAlnum d
  /\ (matchesNonAlnum c = false -> asciiLower c = asciiLower d).

Definition nullish (v : jsval) : bool :=
  match v with
  | JUndefined | JNull => true
  | _ => false
  end.

(** [String(v)] completes. *)
Definition convertible (v : jsval) : Prop :=
  exists s : jsstring, ToString v = Ok s.

(** [v ? parseInt(v) : undefined] completes: [v] is falsy, or it can be
    converted to the string that [parseInt] reads. *)
Definition parsable (v : jsval) : Prop :=
  truthy v = true -> convertible v.

Definition isFetch (e : Event) : bool :=
  match e with
  | EvFetch _ => true
  | _ => false
  end.

(** The number of network requests among some events. *)
Definition fetchCount (events : list Event) : nat := length (filter isFetch events).

(** What an event does to the files: a successful write puts its data at
    its path. *)
Definition applyWrite (files : gmap jsstring FileData) (e : Event)
  : gmap jsstring FileData :=
  match e with
  | EvWriteFile path data => <[path := Bytes data]> files
  | EvWriteTextFile path data => <[path := Text data]> files
  | _ => files
  end.

Definition replay (events : list Event) (files : gmap jsstring FileData)
  : gmap jsstring FileData :=
  fold_left applyWrite events files.

(** The path an event writes to, if it is a write. *)
Definition writePath (e : Event) : option jsstring :=
  match e with
  | EvWriteFile path _ | EvWriteTextFile path _ => Some path
  | _ => None
  end.

(** Whatever world [m] runs in, and whether it completes or throws, it only
    appends events, the files change by the writes among them, and the
    events satisfy [R]. *)
Definition effects {A} (m : M A) (R : list Event -> Prop) : Prop :=
  forall w : World,
    exists events : list Event,
      trace (snd (m w)) = trace w ++ events
      /\ written (snd (m w)) = replay events (written w)
      /\ R events.

(** Events that all satisfy [P], with at most [n] requests among them. *)
Definition bounded (P : Event -> Prop) (n : nat) (events : list Event) : Prop :=
  Forall P events /\ (fetchCount events <= n)%nat.

(** What processing the episode [ep] can do: request its audio URL or its
    image URL when that is truthy; write bytes to [audio/<base>.mp3] or to
    [images/<base>.<ext>], and the episode's JSON text to
    [json/<base>.json], where [<base>] is the sanitized title and [<ext>]
    the extension of the image URL; and print its progress and download
    error lines, which carry the title. *)
Inductive episodeEvent (host : Host) (outputDir : jsstring) (ep : PodcastEpisode)
  : Event -> Prop :=
| EpFetchAudio :
    truthy (audioUrl ep) = true ->
    episodeEvent host outputDir ep (EvFetch (audioUrl ep))
| EpFetchImage :
    truthy (imageUrl ep) = true ->
    episodeEvent host outputDir ep (EvFetch (imageUrl ep))
| EpWriteAudio (base : jsstring) (data : list N) :
    callSanitizeFilename host (title ep) = Ok base ->
    episodeEvent host outputDir ep
      (EvWriteFile (join host (audioDirOf host outputDir) (base ++ str ".mp3")) data)
| EpWriteImage (base ext : jsstring) (data : list N) :
    callSanitizeFilename host (title ep) = Ok base ->
    imageExtension (imageUrl ep) = Ok ext ->
    episodeEvent host outputDir ep
      (EvWriteFile (join host (imageDirOf host outputDir) (base ++ str "." ++ ext)) data)
| EpWriteJson (base : jsstring) :
    callSanitizeFilename host (title ep) = Ok base ->
    episodeEvent host outputDir ep
      (EvWriteTextFile (join host (jsonDirOf host outputDir) (base ++ str ".json"))
         (JSON_stringify host (episodeObject ep)))
| EpProcessing (t : jsstring) :
    ToString (title ep) = Ok t ->
    episodeEvent host outputDir ep (EvLog [str "Processing episode: " ++ t])
| EpAudioReport (r : DownloadResult) (t : jsstring) :
    ToString (title ep) = Ok t ->
    episodeEvent host outputDir ep
      (EvLog [str "Audio download " ++ outcomeWord r ++ str ": " ++ t])
| EpAudioError (msg : jsstring) :
    episodeEvent host outputDir ep (EvError [str "Error downloading audio: " ++ msg])
| EpImageReport (r : DownloadResult) (t : jsstring) :
    ToString (title ep) = Ok t ->
    episodeEvent host outputDir ep
      (EvLog [str "Image download " ++ outcomeWord r ++ str ": " ++ t])
| EpImageError (msg : jsstring) :
    episodeEvent host outputDir ep (EvError [str "Error downloading image: " ++ msg])
| EpSaved (t : jsstring) :
    ToString (title ep) = Ok t ->
    episodeEvent host outputDir ep (EvLog [str "JSON metadata saved: " ++ t]).

(** The line a run closes with: the completion line or the fatal-error
    line. *)
Definition closingLine (ev : Event) : Prop :=
  ev = EvLog [completionMessage] \/ exists e : Thrown, ev = fatalLog e.

(** What a run over the feed's [episodes] does before it closes: it creates
    its three directories, requests the feed, and processes episodes of the
    feed. *)
Inductive bodyEvent (host : Host) (rssUrl outputDir : jsstring)
    (episodes : list PodcastEpisode) : Event -> Prop :=
| RunEnsureAudio :
    bodyEvent host rssUrl outputDir episodes (EvEnsureDir (audioDirOf host outputDir))
| RunEnsureImages :
    bodyEvent host rssUrl outputDir episodes (EvEnsureDir (imageDirOf host outputDir))
| RunEnsureJson :
    bodyEvent host rssUrl outputDir episodes (EvEnsureDir (jsonDirOf host outputDir))
| RunFetchFeed :
    bodyEvent host rssUrl outputDir episodes (EvFetch (JStr rssUrl))
| RunEpisode (ep : PodcastEpisode) (ev : Event) :
    In ep episodes ->
    episodeEvent host outputDir ep ev ->
    bodyEvent host rssUrl outputDir episodes ev.

(** The episodes a run started in [w] gets from its feed, if it gets any. *)
Definition parsedEpisodes (host : Host) (w : World) (rssUrl outputDir : jsstring)
  : list PodcastEpisode :=
  match feedResponse host w rssUrl outputDir with
  | Ok response =>
      match text response with
      | Ok xml =>
          match parseRSSFeed host xml with
          | Ok episodes => episodes
          | Throw _ => []
          end
      | Throw _ => []
      end
  | Throw _ => []
  end.

(** A directory cannot be created: the exception, and the directories
    created before it. *)
Inductive directoryFailure (host : Host) (w : World) (outputDir : jsstring)
  : Thrown -> list Event -> Prop :=
| AudioDirFails (e : Thrown) :
    ensureDirError host (trace w) (audioDirOf host outputDir) = Some e ->
    directoryFailure host w outputDir e []
| ImageDirFails (e : Thrown) :
    ensureDirError host (trace w) (audioDirOf host outputDir) = None ->
    ensureDirError host (trace w ++ [EvEnsureDir (audioDirOf host outputDir)])
      (imageDirOf host outputDir) = Some e ->
    directoryFailure host w outputDir e [EvEnsureDir (audioDirOf host outputDir)]
| JsonDirFails (e : Thrown) :
    ensureDirError host (trace w) (audioDirOf host outputDir) = None ->
    ensureDirError host (trace w ++ [EvEnsureDir (audioDirOf host outputDir)])
      (imageDirOf host outputDir) = None ->
    ensureDirError host
      (trace w ++ [EvEnsureDir (audioDirOf host outputDir);
                   EvEnsureDir (imageDirOf host outputDir)])
      (jsonDirOf host outputDir) = Some e ->
    directoryFailure host w outputDir e
      [EvEnsureDir (audioDirOf host outputDir);
       EvEnsureDir (imageDirOf host outputDir)].


(** The paths a run may write to: [audio/<base>.mp3], [images/<base>.<ext>]
    and [json/<base>.json] under the output directory, for a base name made
    of lower-case letters, digits and underscores, and an extension that is
    not empty and has no dot. *)
Definition managedPath (host : Host) (outputDir path : jsstring) : Prop :=
  exists base : jsstring,
    matchesSafePattern base = true
    /\ (path = join host (audioDirOf host outputDir) (base ++ str ".mp3")
        \/ (exists ext : jsstring,
              ext <> [] /\ ~ In dot ext
              /\ path = join host (imageDirOf host outputDir) (base ++ str "." ++ ext))
        \/ path = join host (jsonDirOf host outputDir) (base ++ str ".json")).

(** A host on which the image directory cannot be created. *)
Definition noImageDirHost : Host :=
  {| unicodeLower := fun s => s;
     join := fun dir name => dir ++ str "/" ++ name;
     parseXml := fun _ => Ok (feedDocument [firstItem; secondItem]);
     JSON_stringify := jsonText [];
     fetchOutcome := fun _ _ => Ok (okResponse [1; 2; 3]);
     writeFileError := fun _ _ => None;
     writeTextFileError := fun _ _ => None;
     ensureDirError := fun _ dir =>
       if decide (dir = str "out/images")
       then Some (ErrorObject (str "Permission denied"))
       else None |}.

(** A feed of three items, the second of which has no title. *)
Definition untitledFields : list (jsstring * jsval) :=
  [ (str "guid", JStr (str "untitled"));
    (str "pubDate", JStr (str "Tue, 02 Jan 2024 00:00:00 GMT"));
    (str "enclosure", JObj [ (str "@url", JStr (str "https://example.org/u.mp3")) ]) ].

Definition untitledEpisode : PodcastEpisode :=
  {| title := JUndefined;
     guid := JStr (str "untitled");
     pubDate := JStr (str "Tue, 02 Jan 2024 00:00:00 GMT");
     duration := JUndefined;
     description := JUndefined;
     link := JUndefined;
     imageUrl := JStr [];
     audioUrl := JStr (str "https://example.org/u.mp3");
     season := None;
     episode := None |}.

Definition untitledFeedHost : Host :=
  simpleHost (Ok (feedDocument [firstItem; JObj untitledFields; secondItem]))
    (fun _ => Ok (okResponse [1; 2; 3])) (fun _ => None).

(** A feed of two items, the first of which has a title that the XML layer
    has revived as the number 10^21. *)
Definition hugeNumberFields : list (jsstring * jsval) :=
  [ (str "title", JNum (Int (10 ^ 21)));
    (str "guid", JStr (str "huge"));
    (str "enclosure", JObj [ (str "@url", JStr (str "https://example.org/h.mp3")) ]) ].

Definition hugeNumberEpisode : PodcastEpisode :=
  {| title := JNum (Int (10 ^ 21));
     guid := JStr (str "huge");
     pubDate := JUndefined;
     duration := JUndefined;
     description := JUndefined;
     link := JUndefined;
     imageUrl := JStr [];
     audioUrl := JStr (str "https://example.org/h.mp3");
     season := None;
     episode := None |}.

Definition numberTitleHost : Host :=
  simpleHost (Ok (feedDocument [JObj hugeNumberFields; secondItem]))
    (fun _ => Ok (okResponse [1; 2; 3])) (fun _ => None).

(** A feed of two items, the second of which has a title element with a
    child named [toString]. *)
Definition opaqueTitle : jsval := JObj [ (str "toString", JStr (str "x")) ].

Definition opaqueTitleFields : list (jsstring * jsval) :=
  [ (str "title", opaqueTitle);
    (str "guid", JStr (str "opaque"));
    (str "enclosure", JObj [ (str "@url", JStr (str "https://example.org/o.mp3")) ]) ].

Definition opaqueTitleEpisode : PodcastEpisode :=
  {| title := opaqueTitle;
     guid := JStr (str "opaque");
     pubDate := JUndefined;
     duration := JUndefined;
     description := JUndefined;
     link := JUndefined;
     imageUrl := JStr [];
     audioUrl := JStr (str "https://example.org/o.mp3");
     season := None;
     episode := None |}.

Definition opaqueTitleHost : Host :=
  simpleHost (Ok (feedDocument [firstItem; JObj opaqueTitleFields]))
    (fun _ => Ok (okResponse [1; 2; 3])) (fun _ => None).

(** What a write event stores. *)
Definition writeData (e : Event) : option FileData :=
  match e with
  | EvWriteFile _ data => Some (Bytes data)
  | EvWriteTextFile _ data => Some (Text data)
  | _ => None
  end.

(** What the last write to [path] among [events] stored, if there is one. *)
Fixpoint lastWriteTo (path : jsstring) (events : list Event) : option FileData :=
  match events with
  | [] => None
  | e :: rest =>
      match lastWriteTo path rest with
      | Some data => Some data
      | None => if decide (writePath e = Some path) then writeData e else None
      end
  end.

(** [join] sends the sidecar of no episode to a path it also uses for an
    audio or an image file, as [path.join] does for names that have no [..]
    segment. *)
Definition keepsDirectoriesApart (host : Host) (outputDir : jsstring) : Prop :=
  forall base base' ext : jsstring,
    matchesSafePattern base = true ->
    matchesSafePattern base' = true ->
    ~ In dot ext ->
    join host (jsonDirOf host outputDir) (base ++ str ".json")
    <> join host (audioDirOf host outputDir) (base' ++ str ".mp3")
    /\ join host (jsonDirOf host outputDir) (base ++ str ".json")
       <> join host (imageDirOf host outputDir) (base' ++ str "." ++ ext).

(** A feed of two items whose titles differ in case only. *)
Definition shoutedItem : jsval := feedItem "FIRST" "https://example.org/2.mp3" [].

Definition shoutedEpisode : PodcastEpisode :=
  episodeOfItem "FIRST" "https://example.org/2.mp3".

Definition sameNameHost : Host :=
  simpleHost (Ok (feedDocument [firstItem; shoutedItem]))
    (fun _ => Ok (okResponse [1; 2; 3])) (fun _ => None).

(** The world after [events] have happened in [w]. *)
Definition after (w : World) (events : list Event) : World :=
  {| trace := trace w ++ events; written := replay events (written w) |}.

(** A host whose network and file system answer the same way whatever has
    happened before. *)
Definition stateless (host : Host) : Prop :=
  (forall (history : list Event) (url : jsval),
     fetchOutcome host history url = fetchOutcome host [] url)
  /\ (forall (history : list Event) (path : jsstring),
        writeFileError host history path = writeFileError host [] path)
  /\ (forall (history : list Event) (path : jsstring),
        writeTextFileError host history path = writeTextFileError host [] path)
  /\ (forall (history : list Event) (dir : jsstring),
        ensureDirError host history dir = ensureDirError host [] dir).

(** [m] has the same outcome and the same effects in every world. *)
Definition uniform {A} (m : M A) : Prop :=
  exists (r : result A) (events : list Event),
    forall w : World, m w = (r, after w events).

(** * Properties *)

(** ** The model at work *)

Example split_on_dots :
  split dot (str "http://a.b/c.png") = [str "http://a"; str "b/c"; str "png"]
  /\ split dot (str "abc.") = [str "abc"; []]
  /\ split dot (str "abc") = [str "abc"]
  /\ split dot [] = [[]].
Proof. repeat split. Qed.

Example parseInt_by_example :
  parseIntString (str "42") = Int 42
  /\ parseIntString (str "  -0x1fz") = Int (-31)
  /\ parseIntString (str "12abc") = Int 12
  /\ parseIntString (str "abc") = NaN
  /\ parseIntString [] = NaN
  /\ parseIntString (str "9007199254740993") = Int 9007199254740992
  /\ parseInt (JNum (Int 7)) = Ok (Int 7)
  /\ parseInt (JNum (Int (10 ^ 21))) = Ok (Int 1)
  /\ parseInt (JObj []) = Ok NaN
  /\ parseInt (JObj [(str "toString", JStr (str "x"))])
     = Throw (TypeError (str "Cannot convert object to primitive value")).
Proof. repeat split; vm_compute; reflexivity. Qed.

Example toString_by_example :
  ToString (JArr [JNum (Int 1); JNull; JStr (str "x"); JArr [JBool true; JUndefined]])
  = Ok (str "1,,x,true,")
  /\ toString (JNum (Int (-12))) = str "-12"
  /\ toString (JNum (Int (2 ^ 60))) = str "1152921504606847000"
  /\ toString (JNum (Int (10 ^ 21))) = str "1e+21"
  /\ toString (JNum (Int (2 ^ 70))) = str "1.1805916207174113e+21"
  /\ toString (JNum (Int 99999999999999991611392)) = str "1e+23"
  /\ toString (JObj [(str "a", JNull)]) = str "[object Object]"
  /\ ToString (JArr [JStr (str "x"); JObj [(str "toString", JNull)]])
     = Throw (TypeError (str "Cannot convert object to primitive value")).
Proof. repeat split; vm_compute; reflexivity. Qed.

(** A complete run: two items, the audio of the first one missing. *)
Example two_item_run :
  trace (snd (backupPodcast twoItemHost (str "https://example.org/feed") (str "out")
                emptyWorld))
  = [ EvEnsureDir (str "out/audio");
      EvEnsureDir (str "out/images");
      EvEnsureDir (str "out/json");
      EvFetch (JStr (str "https://example.org/feed"));
      EvLog [str "Processing episode: First"];
      EvFetch (JStr (str "https://example.org/1.mp3"));
      EvLog [str "Audio download failed: First"];
      EvError [str "Error downloading audio: Failed to download: 404 Not Found"];
      EvWriteTextFile (str "out/json/first.json")
        (jsonText [] (episodeObject firstEpisode));
      EvLog [str "JSON metadata saved: First"];
      EvLog [str "Processing episode: Second"];
      EvFetch (JStr (str "https://example.org/2.mp3"));
      EvWriteFile (str "out/audio/second.mp3") [1; 2; 3];
      EvLog [str "Audio download successful: Second"];
      EvWriteTextFile (str "out/json/second.json")
        (jsonText [] (episodeObject secondEpisode));
      EvLog [str "JSON metadata saved: Second"];
      EvLog [completionMessage] ].
Proof. vm_compute. reflexivity. Qed.

(** ** The sanitizer *)

Ltac char_cases :=
  unfold specSanitizeChar, matchesNonAlnum, asciiLower, isSafeChar, isAscii,
    isLowerAlpha, isUpperAlpha, isDigit, underscore in *;
  repeat match goal with
    | |- context [?a <=? ?b] => destruct (N.leb_spec a b)
    | |- context [?a <? ?b] => destruct (N.ltb_spec a b)
    | |- context [?a =? ?b] => destruct (N.eqb_spec a b)
    end;
  simpl in *; try reflexivity; try lia.

Lemma replaced_char_ascii (c : N) :
  isAscii (if matchesNonAlnum c then underscore else c) = true.
Proof. char_cases. Qed.

Lemma replaced_char_lower (c : N) :
  asciiLower (if matchesNonAlnum c then underscore else c) = specSanitizeChar c.
Proof. char_cases. Qed.

Lemma specSanitizeChar_safe (c : N) : isSafeChar (specSanitizeChar c) = true.
Proof. char_cases. Qed.

Lemma replaceNonAlnum_ascii (s : jsstring) :
  forallb isAscii (replaceNonAlnum s) = true.
Proof.
  induction s as [|c s IH]; simpl; [reflexivity|].
  rewrite replaced_char_ascii. exact IH.
Qed.

Lemma sanitizeFilename_spec (host : Host) (s : jsstring) :
  sanitizeFilename host s = specSanitize s.
Proof.
  unfold sanitizeFilename, toLowerCase.
  rewrite replaceNonAlnum_ascii.
  unfold replaceNonAlnum, specSanitize. rewrite map_map.
  apply map_ext. intros c. apply replaced_char_lower.
Qed.

Lemma specSanitize_safe (s : jsstring) : matchesSafePattern (specSanitize s) = true.
Proof.
  induction s as [|c s IH]; simpl; [reflexivity|].
  rewrite specSanitizeChar_safe. exact IH.
Qed.

(** C2. For every input string, [sanitizeFilename] returns a string that
    matches [^[a-z0-9_]*$], has the length of the input, and is the input
    with every character outside [[a-z0-9]] (case-insensitively) replaced by
    ['_'] and then lowercased; ["Ep. 5: A/B Test!"] becomes
    ["ep__5__a_b_test_"]; and two inputs that agree after replacement and
    lowercasing have the same output. *)
Theorem sanitizeFilename_contract (host : Host) (s : jsstring) :
  matchesSafePattern (sanitizeFilename host s) = true
  /\ length (sanitizeFilename host s) = length s
  /\ sanitizeFilename host s = specSanitize s
  /\ sanitizeFilename host (str "Ep. 5: A/B Test!") = str "ep__5__a_b_test_"
  /\ (forall t : jsstring,
        specSanitize s = specSanitize t ->
        sanitizeFilename host s = sanitizeFilename host t).
Proof.
  rewrite !sanitizeFilename_spec.
  split; [apply specSanitize_safe|].
  split; [apply length_map|].
  split; [reflexivity|].
  split; [reflexivity|].
  intros t Heq. rewrite sanitizeFilename_spec. exact Heq.
Qed.

Lemma sanitizeFilename_contract_witness :
  specSanitize (str "Season 1!") = specSanitize (str "season_1?")
  /\ sanitizeFilename offlineHost (str "Season 1!")
     = sanitizeFilename offlineHost (str "season_1?").
Proof.
  split; [reflexivity|].
  apply (sanitizeFilename_contract offlineHost (str "Season 1!")).
  reflexivity.
Defined.

(** ** The downloader *)

(** What [downloadFile] evaluates to, by cases on what the host does. *)
Lemma downloadFile_eval (host : Host) (url : jsval) (path : jsstring) (w : World) :
  downloadFile host url path w =
  let w1 := logged w (EvFetch url) in
  match fetchOutcome host (trace w) url with
  | Throw e => (Ok (downloadFailed (errorText e)), w1)
  | Ok response =>
      if ok response then
        match arrayBuffer response with
        | Throw e => (Ok (downloadFailed (errorText e)), w1)
        | Ok data =>
            match writeFileError host (trace w1) path with
            | Some e => (Ok (downloadFailed (errorText e)), w1)
            | None =>
                (Ok downloadSucceeded,
                 {| trace := trace w1 ++ [EvWriteFile path data];
                    written := <[path := Bytes data]> (written w1) |})
            end
        end
      else
        (Ok (downloadFailed (str "Failed to download: " ++ decimal (status response)
                             ++ str " " ++ statusText response)), w1)
  end.
Proof.
  unfold downloadFile, tryCatch, bind, fetch, liftR, Deno_writeFile, throw, ret, logged.
  cbn [trace written].
  destruct (fetchOutcome host (trace w) url) as [response|e]; [|reflexivity].
  destruct (ok response); cbn [negb]; [|reflexivity].
  destruct (arrayBuffer response) as [data|e]; [|reflexivity].
  cbn [trace written].
  destruct (writeFileError host (trace w ++ [EvFetch url]) path); reflexivity.
Qed.

(** C3. [downloadFile] never throws.  A response that is not OK gives a
    failure result whose message contains the status number and the status
    text, and an exception raised by the network or by the file system write
    is caught and comes back as a failure result that carries the message of
    the exception, or its string form when it is not an [Error]. *)
Theorem downloadFile_never_throws
    (host : Host) (url : jsval) (path : jsstring) (w : World) :
  (exists (r : DownloadResult) (w' : World), downloadFile host url path w = (Ok r, w'))
  /\ (forall response : Response,
        fetchOutcome host (trace w) url = Ok response ->
        ok response = false ->
        exists (msg : jsstring) (w' : World),
          downloadFile host url path w = (Ok (downloadFailed msg), w')
          /\ contains msg (decimal (status response))
          /\ contains msg (statusText response))
  /\ (forall e : Thrown,
        ioException host w url path e ->
        exists w' : World,
          downloadFile host url path w = (Ok (downloadFailed (errorText e)), w')).
Proof.
  rewrite downloadFile_eval. cbn zeta.
  split; [|split].
  - destruct (fetchOutcome host (trace w) url) as [response|e]; [|eauto].
    destruct (ok response); [|eauto].
    destruct (arrayBuffer response) as [data|e]; [|eauto].
    destruct (writeFileError host (trace (logged w (EvFetch url))) path); eauto.
  - intros response Hfetch Hok. rewrite Hfetch, Hok.
    eexists; eexists; split; [reflexivity|]. split.
    + exists (str "Failed to download: "), (str " " ++ statusText response).
      reflexivity.
    + exists (str "Failed to download: " ++ decimal (status response) ++ str " "), [].
      rewrite app_nil_r, <- !app_assoc. reflexivity.
  - intros e He.
    destruct He as [e Hfetch | response e Hfetch Hok Hbody
                   | response data e Hfetch Hok Hbody Hwrite];
      rewrite Hfetch; [eauto| |]; rewrite Hok, Hbody; [eauto|].
    unfold logged; cbn [trace]. rewrite Hwrite. eauto.
Qed.

Lemma downloadFile_never_throws_witness :
  (exists (msg : jsstring) (w' : World),
     downloadFile notFoundHost (JStr (str "https://example.org/a.mp3"))
       (str "out/audio/a.mp3") emptyWorld = (Ok (downloadFailed msg), w')
     /\ contains msg (str "404")
     /\ contains msg (str "Not Found"))
  /\ (exists w' : World,
        downloadFile offlineHost (JStr (str "https://example.org/a.mp3"))
          (str "out/audio/a.mp3") emptyWorld
        = (Ok (downloadFailed (str "network unreachable")), w')).
Proof.
  split.
  - apply (proj1 (proj2 (downloadFile_never_throws notFoundHost
             (JStr (str "https://example.org/a.mp3")) (str "out/audio/a.mp3")
             emptyWorld)) notFoundResponse); reflexivity.
  - apply (proj2 (proj2 (downloadFile_never_throws offlineHost
             (JStr (str "https://example.org/a.mp3")) (str "out/audio/a.mp3")
             emptyWorld)) (ErrorObject (str "network unreachable"))).
    apply FetchRejected. reflexivity.
Defined.

(** C4, as amended.  When the request for [url] is answered with an OK
    status and the body bytes [data], and the file system accepts the write,
    [downloadFile host url path] writes exactly [data] to [path], whatever
    was there before, and returns a success result. *)
Theorem downloadFile_writes_body
    (host : Host) (url : jsval) (path : jsstring) (w : World)
    (response : Response) (data : list N) :
  fetchOutcome host (trace w) url = Ok response ->
  ok response = true ->
  arrayBuffer response = Ok data ->
  writeFileError host (trace w ++ [EvFetch url]) path = None ->
  exists w' : World,
    downloadFile host url path w = (Ok downloadSucceeded, w')
    /\ trace w' = trace w ++ [EvFetch url; EvWriteFile path data]
    /\ written w' = <[path := Bytes data]> (written w)
    /\ written w' !! path = Some (Bytes data).
Proof.
  intros Hfetch Hok Hbody Hwrite.
  rewrite downloadFile_eval. cbn zeta.
  rewrite Hfetch, Hok, Hbody. unfold logged; cbn [trace written].
  rewrite Hwrite.
  eexists; split; [reflexivity|]. cbn [trace written].
  split; [rewrite <- app_assoc; reflexivity|].
  split; [reflexivity|]. apply lookup_insert_eq.
Qed.

Lemma downloadFile_writes_body_witness :
  exists w' : World,
    downloadFile servingHost (JStr (str "https://example.org/a.mp3"))
      (str "out/audio/a.mp3") staleWorld
    = (Ok downloadSucceeded, w')
    /\ trace w' = trace staleWorld
                  ++ [EvFetch (JStr (str "https://example.org/a.mp3"));
                      EvWriteFile (str "out/audio/a.mp3") [1; 2; 3]]
    /\ written w' = <[str "out/audio/a.mp3" := Bytes [1; 2; 3]]> (written staleWorld)
    /\ written w' !! str "out/audio/a.mp3" = Some (Bytes [1; 2; 3]).
Proof.
  apply (downloadFile_writes_body servingHost (JStr (str "https://example.org/a.mp3"))
           (str "out/audio/a.mp3") staleWorld (okResponse [1; 2; 3]) [1; 2; 3]);
    reflexivity.
Defined.

(** C4, as stated, fails: the request is answered with an OK status and
    the body [1; 2; 3], but the file system rejects the write; [downloadFile]
    returns a failure result and no file is recorded as written. *)
Lemma downloadFile_rejected_write_fails :
  fetchOutcome readOnlyHost (trace emptyWorld) (JStr (str "https://example.org/a.mp3"))
  = Ok (okResponse [1; 2; 3])
  /\ ok (okResponse [1; 2; 3]) = true
  /\ arrayBuffer (okResponse [1; 2; 3]) = Ok [1; 2; 3]
  /\ exists w' : World,
       downloadFile readOnlyHost (JStr (str "https://example.org/a.mp3"))
         (str "out/audio/a.mp3") emptyWorld
       = (Ok (downloadFailed (str "Permission denied")), w')
       /\ downloadFailed (str "Permission denied") <> downloadSucceeded
       /\ trace w' = [EvFetch (JStr (str "https://example.org/a.mp3"))]
       /\ written w' !! str "out/audio/a.mp3" = None.
Proof.
  repeat (split; [reflexivity|]).
  eexists. split; [reflexivity|]. split; [discriminate|].
  split; reflexivity.
Qed.

(** ** [parseInt] *)

Lemma digit_not_space (c : N) : isDigit c = true -> isWhiteSpace c = false.
Proof.
  unfold isDigit, isWhiteSpace. intros H.
  apply andb_true_iff in H as [H1 H2].
  apply N.leb_le in H1, H2.
  repeat match goal with
    | |- context [?a =? ?b] => destruct (N.eqb_spec a b); [lia|]
    | |- context [?a <=? ?b] => destruct (N.leb_spec a b); [try lia|]
    end; reflexivity.
Qed.

Lemma digitValue_decimal (c : N) : isDigit c = true -> digitValue 10 c = Some (c - 48).
Proof.
  unfold digitValue. intros H. rewrite H.
  unfold isDigit in H. apply andb_true_iff in H as [H1 H2].
  apply N.leb_le in H1, H2.
  destruct (N.ltb_spec (c - 48) 10); [reflexivity|lia].
Qed.

Lemma leadingDigits_decimal (s : jsstring) :
  isDecimalDigits s = true -> leadingDigits 10 s = map (fun c => c - 48) s.
Proof.
  induction s as [|c s IH]; simpl; [reflexivity|].
  intros H. apply andb_true_iff in H as [Hc Hs].
  rewrite (digitValue_decimal c Hc), (IH Hs). reflexivity.
Qed.

Lemma stripSign_digits (s : jsstring) :
  isDecimalDigits s = true -> stripSign s = (false, s).
Proof.
  destruct s as [|c s]; [reflexivity|]. simpl. intros H.
  apply andb_true_iff in H as [Hc _]. unfold isDigit in Hc.
  apply andb_true_iff in Hc as [H1 H2]. apply N.leb_le in H1, H2.
  destruct (N.eqb_spec c 45); [lia|]. destruct (N.eqb_spec c 43); [lia|].
  reflexivity.
Qed.

Lemma stripRadixPrefix_digits (s : jsstring) :
  isDecimalDigits s = true -> stripRadixPrefix s = (10, s).
Proof.
  destruct s as [|c [|x s]]; [reflexivity..|]. simpl. intros H.
  apply andb_true_iff in H as [_ H]. apply andb_true_iff in H as [Hx _].
  unfold isDigit in Hx. apply andb_true_iff in Hx as [H1 H2].
  apply N.leb_le in H1, H2.
  destruct (N.eqb_spec x 120); [lia|]. destruct (N.eqb_spec x 88); [lia|].
  rewrite andb_false_r. reflexivity.
Qed.

Lemma trimStart_digits (s : jsstring) : isDecimalDigits s = true -> trimStart s = s.
Proof.
  destruct s as [|c s]; [reflexivity|]. simpl. intros H.
  apply andb_true_iff in H as [Hc _]. rewrite (digit_not_space c Hc). reflexivity.
Qed.

Lemma size_small (m : N) : m < 2 ^ 53 -> N.size m <= 53.
Proof.
  intros Hm. destruct (N.eq_dec m 0) as [->|Hne]; [cbn; lia|].
  rewrite (N.size_log2 m Hne).
  assert (N.log2 m < 53) by (apply N.log2_lt_pow2; [lia|exact Hm]).
  lia.
Qed.

(** Up to 2^53 every integer is a double. *)
Lemma nearestDouble_small (m : N) : m <= 2 ^ 53 -> nearestDouble m = Some m.
Proof.
  intros Hm. destruct (N.eq_dec m (2 ^ 53)) as [->|Hne]; [vm_compute; reflexivity|].
  assert (Hlt : m < 2 ^ 53) by lia.
  pose proof (size_small m Hlt) as Hsize.
  unfold nearestDouble.
  replace (N.size m - 53) with 0 by lia.
  rewrite N.shiftr_0_r, !N.shiftl_0_r, N.sub_diag.
  cbn [N.sub N.shiftl N.ltb N.eqb N.compare orb andb].
  assert (H : m < 2 ^ 1024).
  { eapply N.lt_trans; [exact Hlt|]. apply N.pow_lt_mono_r; lia. }
  apply N.ltb_lt in H. rewrite H. reflexivity.
Qed.

Lemma numberOf_small (negative : bool) (m : N) :
  m <= 2 ^ 53 ->
  numberOf negative m = Int (if negative then - Z.of_N m else Z.of_N m).
Proof. intros Hm. unfold numberOf. rewrite (nearestDouble_small m Hm). reflexivity. Qed.

Lemma numberText_small (m : N) : m <= 2 ^ 53 -> numberText m = decimal m.
Proof.
  intros Hm. unfold numberText. apply N.leb_le in Hm. rewrite Hm. reflexivity.
Qed.

Lemma digits_value (negative : bool) (s : jsstring) :
  s <> [] -> isDecimalDigits s = true ->
  match leadingDigits 10 s with
  | [] => NaN
  | ds => numberOf negative (digitsValue 10 ds)
  end = numberOf negative (decimalValue s).
Proof.
  intros Hne Hdigits. rewrite (leadingDigits_decimal s Hdigits).
  destruct s; [congruence|reflexivity].
Qed.

Lemma parseIntString_digits (s : jsstring) :
  s <> [] -> isDecimalDigits s = true ->
  parseIntString s = numberOf false (decimalValue s).
Proof.
  intros Hne Hdigits. unfold parseIntString.
  rewrite (trimStart_digits s Hdigits), (stripSign_digits s Hdigits),
    (stripRadixPrefix_digits s Hdigits).
  apply digits_value; assumption.
Qed.

Lemma parseIntString_minus_digits (s : jsstring) :
  s <> [] -> isDecimalDigits s = true ->
  parseIntString (45 :: s) = numberOf true (decimalValue s).
Proof.
  intros Hne Hdigits. unfold parseIntString.
  change (trimStart (45 :: s)) with (45 :: s).
  change (stripSign (45 :: s)) with (true, s). cbv iota beta.
  rewrite (stripRadixPrefix_digits s Hdigits).
  apply digits_value; assumption.
Qed.

Lemma uintDigits_small (d : Decimal.uint) : Forall (fun k => k < 10) (uintDigits d).
Proof. induction d; simpl; constructor; (lia || assumption). Qed.

Lemma string_of_uint_digits (d : Decimal.uint) :
  str (NilEmpty.string_of_uint d) = map (fun k => 48 + k) (uintDigits d).
Proof.
  unfold str. induction d; simpl; [reflexivity|..]; f_equal; assumption.
Qed.

Lemma uintDigits_revapp (d d' : Decimal.uint) :
  uintDigits (Decimal.revapp d d') = rev (uintDigits d) ++ uintDigits d'.
Proof.
  revert d'. induction d; intros d'; simpl; [reflexivity|..];
    rewrite IHd; simpl; rewrite <- app_assoc; reflexivity.
Qed.

Lemma of_lu_digits (d : Decimal.uint) :
  DecimalPos.Unsigned.of_lu d = littleEndianValue (uintDigits d).
Proof.
  unfold littleEndianValue.
  induction d; simpl; [reflexivity|..]; rewrite IHd; lia.
Qed.

Lemma digitsValue_little_endian (ds : list N) :
  digitsValue 10 ds = littleEndianValue (rev ds).
Proof.
  unfold digitsValue, littleEndianValue.
  induction ds as [|d ds IH] using rev_ind; [reflexivity|].
  rewrite fold_left_app, rev_app_distr. simpl. rewrite IH. lia.
Qed.

Lemma digitsValue_uint (d : Decimal.uint) :
  digitsValue 10 (uintDigits d) = Pos.of_uint d.
Proof.
  rewrite DecimalPos.Unsigned.of_uint_alt, of_lu_digits, digitsValue_little_endian.
  unfold Decimal.rev. rewrite uintDigits_revapp, app_nil_r. reflexivity.
Qed.

Lemma decimal_digits (n : N) :
  exists ds : list N,
    ds <> [] /\ Forall (fun k => k < 10) ds
    /\ decimal n = map (fun k => 48 + k) ds
    /\ digitsValue 10 ds = n.
Proof.
  destruct n as [|p].
  - exists [0]. repeat split; [congruence|repeat constructor; lia].
  - exists (uintDigits (Pos.to_uint p)).
    assert (Hnil : Pos.to_uint p <> Decimal.Nil)
      by apply DecimalPos.Unsigned.to_uint_nonnil.
    split; [destruct (Pos.to_uint p); simpl; congruence|].
    split; [apply uintDigits_small|]. split.
    + unfold decimal, N.to_uint, NilZero.string_of_uint.
      destruct (Pos.to_uint p) eqn:E; [congruence|..];
        rewrite <- string_of_uint_digits; reflexivity.
    + rewrite digitsValue_uint. apply DecimalPos.Unsigned.of_to.
Qed.

Lemma digit_chars (ds : list N) :
  Forall (fun k => k < 10) ds ->
  isDecimalDigits (map (fun k => 48 + k) ds) = true
  /\ map (fun c => c - 48) (map (fun k => 48 + k) ds) = ds.
Proof.
  induction 1 as [|k ds Hk _ [IH1 IH2]]; simpl; [split; reflexivity|].
  rewrite IH1, IH2. split.
  - unfold isDigit. destruct (N.leb_spec 48 (48 + k)); [|lia].
    destruct (N.leb_spec (48 + k) 57); [reflexivity|lia].
  - f_equal. lia.
Qed.

Lemma parseIntString_decimal (n : N) : parseIntString (decimal n) = numberOf false n.
Proof.
  destruct (decimal_digits n) as (ds & Hne & Hsmall & Hdec & Hval).
  destruct (digit_chars ds Hsmall) as [Hdigits Hback].
  rewrite Hdec, parseIntString_digits; [|destruct ds; simpl; congruence|exact Hdigits].
  unfold decimalValue. rewrite Hback, Hval. reflexivity.
Qed.

(** [parseInt] gives back an integer that a double holds exactly and that
    is printed without an exponent; every integer up to 2^53 is one. *)
Lemma parseInt_integer (z : Z) :
  (Z.abs z <= 2 ^ 53)%Z -> parseInt (JNum (Int z)) = Ok (Int z).
Proof.
  intros Hz.
  assert (Hm : Z.abs_N z <= 2 ^ 53) by lia.
  unfold parseInt. cbn [ToString rbind numberString]. unfold decimalZ.
  rewrite (numberText_small _ Hm). f_equal.
  destruct (Z.ltb_spec z 0) as [Hneg|Hpos].
  - destruct (decimal_digits (Z.abs_N z)) as (ds & Hne & Hsmall & Hdec & Hval).
    destruct (digit_chars ds Hsmall) as [Hdigits Hback].
    rewrite Hdec. change (str "-" ++ ?s) with (45 :: s).
    rewrite parseIntString_minus_digits;
      [|destruct ds; simpl; congruence|exact Hdigits].
    unfold decimalValue. rewrite Hback, Hval, (numberOf_small true _ Hm).
    f_equal. lia.
  - rewrite parseIntString_decimal, (numberOf_small false _ Hm). f_equal. lia.
Qed.

(** ** The feed parser *)

Lemma mapR_length {A B} (f : A -> result B) (l : list A) (ys : list B) :
  mapR f l = Ok ys -> length ys = length l.
Proof.
  revert ys. induction l as [|x l IH]; simpl; intros ys H.
  - injection H as <-. reflexivity.
  - destruct (f x); [|discriminate]. simpl in H.
    destruct (mapR f l); [|discriminate]. simpl in H.
    injection H as <-. simpl. f_equal. apply IH. reflexivity.
Qed.

(** [mapR] keeps the order: the i-th result comes from the i-th element. *)
Lemma mapR_pointwise {A B} (f : A -> result B) (l : list A) (ys : list B) :
  mapR f l = Ok ys -> Forall2 (fun x y => f x = Ok y) l ys.
Proof.
  revert ys. induction l as [|x l IH]; simpl; intros ys H.
  - injection H as <-. constructor.
  - destruct (f x) eqn:Hx; [|discriminate]. simpl in H.
    destruct (mapR f l); [|discriminate]. simpl in H.
    injection H as <-. constructor; [exact Hx|]. apply IH. reflexivity.
Qed.

Lemma mapR_first_throw {A B} (f : A -> result B) (before after : list A) (x : A)
    (ys : list B) (e : Thrown) :
  mapR f before = Ok ys -> f x = Throw e -> mapR f (before ++ x :: after) = Throw e.
Proof.
  revert ys. induction before as [|b before IH]; simpl; intros ys Hbefore Hx.
  - rewrite Hx. reflexivity.
  - destruct (f b); [|discriminate]. simpl in *.
    destruct (mapR f before) eqn:E; [|discriminate].
    rewrite (IH _ eq_refl Hx). reflexivity.
Qed.

Lemma mapR_some_throw {A B} (f : A -> result B) (l : list A) (x : A) (e : Thrown) :
  In x l -> f x = Throw e -> exists e' : Thrown, mapR f l = Throw e'.
Proof.
  induction l as [|y l IH]; simpl; [tauto|]. intros [->|Hin] Hx.
  - rewrite Hx. eauto.
  - destruct (f y); [|eauto]. simpl.
    destruct (IH Hin Hx) as [e' ->]. eauto.
Qed.

Lemma parseRSSFeed_items (host : Host) (xml : jsstring) (doc : jsval)
    (items : list jsval) :
  parseXml host xml = Ok doc ->
  feedItems doc items ->
  parseRSSFeed host xml = callMap (childrenShape items) itemToEpisode.
Proof.
  intros Hdoc (rss & channel & Hrss & Hchannel & Hitem).
  unfold parseRSSFeed. rewrite Hdoc. cbn [rbind].
  rewrite Hrss. cbn [rbind]. rewrite Hchannel. cbn [rbind].
  rewrite Hitem. reflexivity.
Qed.


(** A single item arrives as the item object itself, which has no [map]. *)
Lemma parseRSSFeed_single_item (host : Host) (xml : jsstring) (doc : jsval)
    (fields : list (jsstring * jsval)) :
  parseXml host xml = Ok doc ->
  feedItems doc [JObj fields] ->
  parseRSSFeed host xml = Throw (TypeError (str "items.map is not a function")).
Proof.
  intros Hdoc Hitems.
  rewrite (parseRSSFeed_items host xml doc [JObj fields] Hdoc Hitems). reflexivity.
Qed.

(** C5 (the code departs from the claim).  On a feed with exactly one item
    [parseRSSFeed] does not return a one-element sequence: the XML layer
    hands over the item object instead of an array, nothing normalises it,
    and calling [map] on it throws.  The run ends with the fatal-error line
    and the episode is never processed. *)
Theorem parseRSSFeed_single_item_throws (xml : jsstring) :
  feedItems (feedDocument [pilotItem]) [pilotItem]
  /\ parseRSSFeed singleItemHost xml
     = Throw (TypeError (str "items.map is not a function"))
  /\ trace (snd (backupPodcast singleItemHost (str "https://example.org/feed")
                   (str "out") emptyWorld))
     = [ EvEnsureDir (str "out/audio");
         EvEnsureDir (str "out/images");
         EvEnsureDir (str "out/json");
         EvFetch (JStr (str "https://example.org/feed"));
         EvError [str "Error during backup:"; str "items.map is not a function"] ].
Proof.
  split; [|split; reflexivity].
  eexists; eexists. repeat split; reflexivity.
Qed.

Lemma getOpt_completes (v : jsval) (k : jsstring) : exists r : jsval, getOpt v k = Ok r.
Proof. destruct v; simpl; eauto. Qed.

Ltac step_rbind :=
  match goal with
  | H : context [rbind ?r _] |- _ =>
      let E := fresh "E" in destruct r eqn:E; cbn [rbind] in H; [|discriminate H]
  end.

(** The two optional fields of an episode, read off the source. *)
Lemma itemToEpisode_optional_fields (item : jsval) (ep : PodcastEpisode)
    (seasonNode episodeNode : jsval) :
  itemToEpisode item = Ok ep ->
  get item (str "itunes:season") = Ok seasonNode ->
  get item (str "itunes:episode") = Ok episodeNode ->
  optionalInt seasonNode = Ok (season ep)
  /\ optionalInt episodeNode = Ok (episode ep).
Proof.
  intros Hep Hseason Hepisode. unfold itemToEpisode in Hep.
  repeat step_rbind.
  injection Hep as <-. cbn [season episode].
  injection Hseason as ->. injection Hepisode as ->.
  split; assumption.
Qed.

Lemma optionalInt_field (node : jsval) (field : option jsnum) :
  optionalInt node = Ok field ->
  (field = None <-> truthy node = false)
  /\ (truthy node = true -> exists n : jsnum, parseInt node = Ok n /\ field = Some n).
Proof.
  unfold optionalInt. destruct (truthy node).
  - destruct (parseInt node) as [n|e]; cbn [rbind]; [|discriminate].
    intros [= <-]. split; [split; discriminate|eauto].
  - intros [= <-]. split; [split; reflexivity|discriminate].
Qed.

Lemma optionalInt_digits (digits : jsstring) :
  digits <> [] -> isDecimalDigits digits = true ->
  optionalInt (JStr digits) = Ok (Some (numberOf false (decimalValue digits))).
Proof.
  intros Hne Hdigits. unfold optionalInt, parseInt.
  replace (truthy (JStr digits)) with true by (destruct digits; [congruence|reflexivity]).
  cbn [ToString rbind]. rewrite (parseIntString_digits digits Hne Hdigits). reflexivity.
Qed.

Lemma optionalInt_integer (n : Z) :
  n <> 0%Z -> (Z.abs n <= 2 ^ 53)%Z -> optionalInt (JNum (Int n)) = Ok (Some (Int n)).
Proof.
  intros Hn Hsafe. unfold optionalInt.
  replace (truthy (JNum (Int n))) with true
    by (simpl; destruct (Z.eqb_spec n 0); [contradiction|reflexivity]).
  rewrite (parseInt_integer n Hsafe). reflexivity.
Qed.

(** C6, as amended.  The season (resp. episode) field of an episode is
    omitted exactly when the item's [itunes:season] (resp. [itunes:episode])
    value is absent or falsy; otherwise the field is [parseInt] of that
    value.  For a text of decimal digits it is the double nearest to the
    non-negative integer the text denotes, which is that integer itself up
    to 2^53; for a non-zero integer of magnitude at most 2^53 that the XML
    layer has revived as a number it is that integer. *)
Theorem season_and_episode_fields (item : jsval) (ep : PodcastEpisode)
    (seasonNode episodeNode : jsval) :
  itemToEpisode item = Ok ep ->
  get item (str "itunes:season") = Ok seasonNode ->
  get item (str "itunes:episode") = Ok episodeNode ->
  (season ep = None <-> truthy seasonNode = false)
  /\ (episode ep = None <-> truthy episodeNode = false)
  /\ (truthy seasonNode = true ->
      exists n : jsnum, parseInt seasonNode = Ok n /\ season ep = Some n)
  /\ (truthy episodeNode = true ->
      exists n : jsnum, parseInt episodeNode = Ok n /\ episode ep = Some n)
  /\ (forall digits : jsstring,
        digits <> [] -> isDecimalDigits digits = true ->
        (seasonNode = JStr digits ->
         season ep = Some (numberOf false (decimalValue digits)))
        /\ (episodeNode = JStr digits ->
            episode ep = Some (numberOf false (decimalValue digits)))
        /\ (decimalValue digits <= 2 ^ 53 ->
            numberOf false (decimalValue digits) = Int (Z.of_N (decimalValue digits))))
  /\ (forall n : Z,
        n <> 0%Z -> (Z.abs n <= 2 ^ 53)%Z ->
        (seasonNode = JNum (Int n) -> season ep = Some (Int n))
        /\ (episodeNode = JNum (Int n) -> episode ep = Some (Int n))).
Proof.
  intros Hep Hseason Hepisode.
  destruct (itemToEpisode_optional_fields item ep seasonNode episodeNode
              Hep Hseason Hepisode) as [Hs He].
  destruct (optionalInt_field seasonNode (season ep) Hs) as [Hs1 Hs2].
  destruct (optionalInt_field episodeNode (episode ep) He) as [He1 He2].
  split; [exact Hs1|]. split; [exact He1|]. split; [exact Hs2|]. split; [exact He2|].
  split.
  - intros digits Hne Hdigits.
    pose proof (optionalInt_digits digits Hne Hdigits) as Hvalue.
    split; [|split].
    + intros ->. congruence.
    + intros ->. congruence.
    + intros Hsmall. apply (numberOf_small false _ Hsmall).
  - intros n Hn Hsafe.
    pose proof (optionalInt_integer n Hn Hsafe) as Hvalue.
    split; intros ->; congruence.
Qed.

Lemma season_and_episode_fields_witness :
  exists ep : PodcastEpisode,
    itemToEpisode numberedItem = Ok ep
    /\ season ep = Some (Int 2)
    /\ episode ep = Some (Int 7).
Proof.
  destruct (itemToEpisode numberedItem) as [ep|] eqn:Hep; [|discriminate Hep].
  exists ep. split; [reflexivity|].
  pose proof (season_and_episode_fields numberedItem ep (JNum (Int 2))
                (JStr (str "07")) Hep eq_refl eq_refl)
    as (_ & _ & _ & _ & Hdigits & Hnumber).
  split.
  - apply (Hnumber 2%Z); [discriminate|vm_compute; discriminate|reflexivity].
  - destruct (Hdigits (str "07")) as (_ & Hepisode & Hexact);
      [discriminate|reflexivity|].
    rewrite (Hepisode eq_refl), Hexact; [reflexivity|vm_compute; discriminate].
Defined.

(** C6, as stated, fails: an item whose season element holds the text
    [abc] supplies no parseable number, yet the episode has a season field,
    and it holds [NaN]. *)
Lemma season_of_unparseable_text_is_NaN :
  parseInt (JStr (str "abc")) = Ok NaN
  /\ exists ep : PodcastEpisode,
       itemToEpisode bonusItem = Ok ep
       /\ season ep = Some NaN
       /\ season ep <> None
       /\ lookupField (str "season")
            match episodeObject ep with JObj fields => fields | _ => [] end
          = JNum NaN.
Proof.
  split; [reflexivity|].
  eexists. split; [reflexivity|].
  split; [reflexivity|]. split; [discriminate|reflexivity].
Qed.

(** ** The orchestrator: the steps of one episode *)

Lemma reportEvents_no_text_write (url : jsval) (path : jsstring) (events : list Event) :
  Forall (reportEvent url path) events -> textWrites events = [].
Proof.
  induction 1 as [|e events He _ IH]; [reflexivity|].
  unfold textWrites in *. simpl. destruct He; simpl; exact IH.
Qed.

Lemma textWrites_app (events events' : list Event) :
  textWrites (events ++ events') = textWrites events ++ textWrites events'.
Proof. apply filter_app. Qed.

(** A download followed by its report never throws, and only touches the
    network, [path] and the console. *)
Lemma download_and_report (host : Host) (url : jsval) (path : jsstring)
    (prefix errorLine : DownloadResult -> jsstring) (v : jsval) (w : World) :
  ToString v = Ok (toString v) ->
  exists (w' : World) (events : list Event),
    (r <- downloadFile host url path ;;
     line <- liftR (template (prefix r) v) ;;
     consoleLog [line] ;;
     if negb (success r) then consoleError [errorLine r] else ret tt) w
    = (Ok tt, w')
    /\ trace w' = trace w ++ events
    /\ Forall (reportEvent url path) events
    /\ In (EvFetch url) events.
Proof.
  intros Hv. unfold bind, template. rewrite Hv. cbn [rbind]. unfold liftR.
  rewrite downloadFile_eval. cbn zeta.
  unfold consoleLog, consoleError, emit, ret, logged.
  destruct (fetchOutcome host (trace w) url) as [response|e];
    [destruct (ok response);
     [destruct (arrayBuffer response) as [data|e];
      [cbn [trace written];
       destruct (writeFileError host (trace w ++ [EvFetch url]) path)|]|]|];
    (eexists; eexists; split; [reflexivity|]; cbn [trace];
     rewrite <- !app_assoc; split; [reflexivity|];
     split; [repeat constructor|left; reflexivity]).
Qed.

Lemma audioStep_events (host : Host) (audioDir baseFilename : jsstring)
    (ep : PodcastEpisode) (w : World) :
  ToString (title ep) = Ok (toString (title ep)) ->
  exists (w' : World) (events : list Event),
    audioStep host audioDir baseFilename ep w = (Ok tt, w')
    /\ trace w' = trace w ++ events
    /\ Forall (reportEvent (audioUrl ep)
                 (join host audioDir (baseFilename ++ str ".mp3"))) events
    /\ (truthy (audioUrl ep) = true -> In (EvFetch (audioUrl ep)) events).
Proof.
  intros Htext. unfold audioStep. destruct (truthy (audioUrl ep)).
  - destruct (download_and_report host (audioUrl ep)
                (join host audioDir (baseFilename ++ str ".mp3"))
                (fun r => str "Audio download " ++ outcomeWord r ++ str ": ")
                (fun r => str "Error downloading audio: " ++ optionalText (error r))
                (title ep) w Htext)
      as (w' & events & Hrun & Htrace & Hevents & Hfetch).
    exists w', events. auto.
  - exists w, []. rewrite app_nil_r. repeat split; [constructor|discriminate].
Qed.

Lemma imageStep_events (host : Host) (imageDir baseFilename : jsstring)
    (ep : PodcastEpisode) (s : jsstring) (w : World) :
  ToString (title ep) = Ok (toString (title ep)) ->
  imageUrl ep = JStr s ->
  exists (w' : World) (events : list Event),
    imageStep host imageDir baseFilename ep w = (Ok tt, w')
    /\ trace w' = trace w ++ events
    /\ Forall (reportEvent (imageUrl ep)
                 (join host imageDir (baseFilename ++ str "." ++ extensionOf s)))
         events
    /\ (truthy (imageUrl ep) = true -> In (EvFetch (imageUrl ep)) events).
Proof.
  intros Htext Himage.
  assert (Hext : imageExtension (imageUrl ep) = Ok (extensionOf s))
    by (rewrite Himage; reflexivity).
  unfold imageStep. destruct (truthy (imageUrl ep)).
  - rewrite Hext. unfold bind at 1, liftR.
    destruct (download_and_report host (imageUrl ep)
                (join host imageDir (baseFilename ++ str "." ++ extensionOf s))
                (fun r => str "Image download " ++ outcomeWord r ++ str ": ")
                (fun r => str "Error downloading image: " ++ optionalText (error r))
                (title ep) w Htext)
      as (w' & events & Hrun & Htrace & Hevents & Hfetch).
    exists w', events. auto.
  - exists w, []. rewrite app_nil_r. repeat split; [constructor|discriminate].
Qed.

Lemma truthy_text (s : jsstring) : s <> [] -> truthy (JStr s) = true.
Proof. destruct s; [congruence|reflexivity]. Qed.



Lemma metadataStep_accepted (host : Host) (jsonDir baseFilename : jsstring)
    (ep : PodcastEpisode) (w : World) :
  ToString (title ep) = Ok (toString (title ep)) ->
  acceptsTextWrites host ->
  metadataStep host jsonDir baseFilename ep w
  = (Ok tt,
     {| trace := trace w
                 ++ [ EvWriteTextFile (join host jsonDir (baseFilename ++ str ".json"))
                        (JSON_stringify host (episodeObject ep));
                      savedLog ep ];
        written := <[join host jsonDir (baseFilename ++ str ".json")
                     := Text (JSON_stringify host (episodeObject ep))]> (written w) |}).
Proof.
  intros Htext Haccepts. unfold metadataStep, bind, Deno_writeTextFile, template.
  rewrite Haccepts, Htext. cbn [rbind]. unfold liftR, consoleLog, emit, savedLog.
  cbn [trace written].
  rewrite <- !app_assoc. reflexivity.
Qed.

(** One pass through the loop body, given what the audio block did. *)
Lemma processEpisode_shape (host : Host) (outputDir t s : jsstring)
    (ep : PodcastEpisode) (w wa : World) (audio : list Event) :
  title ep = JStr t ->
  imageUrl ep = JStr s ->
  acceptsTextWrites host ->
  audioStep host (audioDirOf host outputDir) (sanitizeFilename host t) ep
    (logged w (processingLog ep)) = (Ok tt, wa) ->
  trace wa = trace w ++ processingLog ep :: audio ->
  exists (w' : World) (image : list Event),
    processEpisode host (audioDirOf host outputDir) (imageDirOf host outputDir)
      (jsonDirOf host outputDir) ep w = (Ok tt, w')
    /\ trace w' = trace w ++ processingLog ep :: audio ++ image
                  ++ [metadataWrite host outputDir ep; savedLog ep]
    /\ Forall (reportEvent (imageUrl ep) (imagePathOf host outputDir ep)) image
    /\ (truthy (imageUrl ep) = true -> In (EvFetch (imageUrl ep)) image).
Proof.
  intros Htitle Himage Haccepts Haudio Htrace.
  assert (Htext : ToString (title ep) = Ok (toString (title ep)))
    by (rewrite Htitle; reflexivity).
  destruct (imageStep_events host (imageDirOf host outputDir)
              (sanitizeFilename host t) ep s wa Htext Himage)
    as (wi & image & Hstep & Hwi & Hevents & Hfetch).
  eexists; exists image. split; [|split; [|split; [|exact Hfetch]]].
  - assert (Hbase : callSanitizeFilename host (title ep)
                    = Ok (sanitizeFilename host t))
      by (rewrite Htitle; reflexivity).
    unfold logged, processingLog in Haudio.
    unfold processEpisode, template. rewrite Htext. cbn [rbind].
    unfold bind at 1, liftR at 1. unfold bind at 1, consoleLog, emit.
    unfold bind at 1, liftR. rewrite Hbase.
    unfold bind at 1. rewrite Haudio.
    unfold bind at 1. rewrite Hstep.
    apply metadataStep_accepted; assumption.
  - cbn [trace]. rewrite Hwi, Htrace.
    unfold metadataWrite, jsonPathOf, baseFilenameOf. rewrite Htitle.
    rewrite <- !app_assoc. reflexivity.
  - unfold imagePathOf, baseFilenameOf. rewrite Htitle, Himage.
    rewrite <- Himage. exact Hevents.
Qed.

Lemma hasTextFields_inv (ep : PodcastEpisode) :
  hasTextFields ep = true ->
  exists t s : jsstring, title ep = JStr t /\ imageUrl ep = JStr s.
Proof.
  unfold hasTextFields.
  destruct (title ep); try discriminate. destruct (imageUrl ep); try discriminate.
  eauto.
Qed.

Lemma allStepsRun_earlier (host : Host) (outputDir : jsstring) (ep : PodcastEpisode)
    (events later : list Event) :
  allStepsRun host outputDir ep events ->
  allStepsRun host outputDir ep (events ++ later).
Proof.
  intros (Hlog & Haudio & Himage & Hjson).
  repeat split; try intros Hurl; apply in_or_app; left; auto.
Qed.

Lemma allStepsRun_later (host : Host) (outputDir : jsstring) (ep : PodcastEpisode)
    (earlier events : list Event) :
  allStepsRun host outputDir ep events ->
  allStepsRun host outputDir ep (earlier ++ events).
Proof.
  intros (Hlog & Haudio & Himage & Hjson).
  repeat split; try intros Hurl; apply in_or_app; right; auto.
Qed.

(** Whatever the downloads do, the loop body completes: every sub-step
    runs and the episode's JSON sidecar is the one text file written. *)
Lemma processEpisode_completes (host : Host) (outputDir : jsstring)
    (ep : PodcastEpisode) (w : World) :
  hasTextFields ep = true ->
  acceptsTextWrites host ->
  exists (w' : World) (events : list Event),
    processEpisode host (audioDirOf host outputDir) (imageDirOf host outputDir)
      (jsonDirOf host outputDir) ep w = (Ok tt, w')
    /\ trace w' = trace w ++ events
    /\ textWrites events = [metadataWrite host outputDir ep]
    /\ allStepsRun host outputDir ep events.
Proof.
  intros Hfields Haccepts.
  destruct (hasTextFields_inv ep Hfields) as (t & s & Htitle & Himage).
  assert (Htext : ToString (title ep) = Ok (toString (title ep)))
    by (rewrite Htitle; reflexivity).
  destruct (audioStep_events host (audioDirOf host outputDir)
              (sanitizeFilename host t) ep (logged w (processingLog ep)) Htext)
    as (wa & audio & Haudio & Hwa & Haudio_events & Haudio_fetch).
  assert (Htrace : trace wa = trace w ++ processingLog ep :: audio).
  { rewrite Hwa. unfold logged. cbn [trace]. rewrite <- app_assoc. reflexivity. }
  destruct (processEpisode_shape host outputDir t s ep w wa audio
              Htitle Himage Haccepts Haudio Htrace)
    as (w' & image & Hrun & Hw' & Himage_events & Himage_fetch).
  exists w', ([processingLog ep] ++ audio ++ image
              ++ [metadataWrite host outputDir ep; savedLog ep]).
  split; [exact Hrun|]. split; [exact Hw'|]. split.
  - rewrite !textWrites_app,
      (reportEvents_no_text_write _ _ _ Haudio_events),
      (reportEvents_no_text_write _ _ _ Himage_events).
    reflexivity.
  - unfold allStepsRun. rewrite !in_app_iff. cbn [In]. tauto.
Qed.

(** The whole loop: every sub-step of every episode runs, and the JSON
    sidecars are written in feed order. *)
Lemma forEach_completes (host : Host) (outputDir : jsstring)
    (episodes : list PodcastEpisode) (w : World) :
  Forall (fun ep => hasTextFields ep = true) episodes ->
  acceptsTextWrites host ->
  exists (w' : World) (events : list Event),
    forEach episodes
      (processEpisode host (audioDirOf host outputDir) (imageDirOf host outputDir)
         (jsonDirOf host outputDir)) w = (Ok tt, w')
    /\ trace w' = trace w ++ events
    /\ textWrites events = map (metadataWrite host outputDir) episodes
    /\ Forall (fun ep => allStepsRun host outputDir ep events) episodes.
Proof.
  intros Hfields Haccepts. revert w.
  induction Hfields as [|ep episodes Hep _ IH]; intros w.
  - exists w, []. rewrite app_nil_r. repeat split. constructor.
  - destruct (processEpisode_completes host outputDir ep w Hep Haccepts)
      as (w1 & first & Hrun & Hw1 & Hfirst & Hsteps).
    destruct (IH w1) as (w' & events & Hrest & Hw' & Hevents & Hall).
    exists w', (first ++ events).
    split; [|split; [|split]].
    + cbn [forEach]. unfold bind at 1. rewrite Hrun. exact Hrest.
    + rewrite Hw', Hw1. rewrite <- !app_assoc. reflexivity.
    + rewrite textWrites_app, Hfirst, Hevents. reflexivity.
    + constructor.
      * apply allStepsRun_earlier. exact Hsteps.
      * eapply Forall_impl; [exact Hall|]. intros ep' Hep'.
        apply allStepsRun_later. exact Hep'.
Qed.

(** ** The orchestrator: the run *)

(** A run whose directories can be created, up to the loop. *)
Lemma backupPodcast_setup (host : Host) (rssUrl outputDir : jsstring) (w : World) :
  directoriesReady host w outputDir ->
  backupPodcast host rssUrl outputDir w =
  let w0 := extend w (setupEvents host rssUrl outputDir) in
  match feedResponse host w rssUrl outputDir with
  | Throw e => (Ok tt, logged w0 (fatalLog e))
  | Ok response =>
      match text response with
      | Throw e => (Ok tt, logged w0 (fatalLog e))
      | Ok xml =>
          match parseRSSFeed host xml with
          | Throw e => (Ok tt, logged w0 (fatalLog e))
          | Ok episodes =>
              tryCatch
                (forEach episodes
                   (processEpisode host (audioDirOf host outputDir)
                      (imageDirOf host outputDir) (jsonDirOf host outputDir)) ;;
                 consoleLog [completionMessage])
                (fun error => consoleError [str "Error during backup:"; errorText error])
                w0
          end
      end
  end.
Proof.
  intros (Haudio & Himage & Hjson).
  unfold backupPodcast, feedResponse. cbn zeta.
  fold (audioDirOf host outputDir) (imageDirOf host outputDir) (jsonDirOf host outputDir).
  unfold tryCatch at 1, bind at 1, ensureDir at 1. rewrite Haudio.
  unfold bind at 1, ensureDir at 1. cbn [trace written]. rewrite Himage.
  unfold bind at 1, ensureDir at 1. cbn [trace written].
  rewrite <- !app_assoc. cbn [app]. rewrite Hjson.
  unfold bind at 1, fetch at 1. cbn [trace written].
  rewrite <- !app_assoc. cbn [app].
  unfold extend, setupEvents, logged, fatalLog, consoleError, emit.
  destruct (fetchOutcome host _ (JStr rssUrl)) as [response|e]; [|reflexivity].
  unfold bind at 1, liftR at 1.
  destruct (text response) as [xml|e]; [|reflexivity].
  unfold bind at 1, liftR at 1.
  destruct (parseRSSFeed host xml) as [episodes|e]; reflexivity.
Qed.

Lemma backupPodcast_completes (host : Host) (rssUrl outputDir : jsstring) (w : World) :
  exists w' : World, backupPodcast host rssUrl outputDir w = (Ok tt, w').
Proof.
  unfold backupPodcast, tryCatch.
  match goal with |- context [match ?body w with _ => _ end] => destruct (body w) as [[[]|e] w1] end.
  - eauto.
  - unfold consoleError, emit. eauto.
Qed.

(** A failure of the feed stage ends the run with the error line. *)
Lemma backupPodcast_feed_failure
    (host : Host) (rssUrl outputDir : jsstring) (w : World) (e : Thrown) :
  directoriesReady host w outputDir ->
  feedFailure host w rssUrl outputDir e ->
  backupPodcast host rssUrl outputDir w
  = (Ok tt, extend w (setupEvents host rssUrl outputDir ++ [fatalLog e])).
Proof.
  intros Hdirs Hfail. rewrite (backupPodcast_setup host rssUrl outputDir w Hdirs).
  cbn zeta. unfold logged, extend. cbn [trace written].
  destruct Hfail as [e Hfetch | response e Hfetch Htext
                    | response xml e Hfetch Htext Hparse];
    rewrite Hfetch; [| rewrite Htext | rewrite Htext, Hparse];
    rewrite <- app_assoc; reflexivity.
Qed.

(** When a directory cannot be created the run ends there. *)
Lemma backupPodcast_directory_failure (host : Host) (rssUrl outputDir : jsstring)
    (w : World) (e : Thrown) (created : list Event) :
  directoryFailure host w outputDir e created ->
  backupPodcast host rssUrl outputDir w = (Ok tt, extend w (created ++ [fatalLog e])).
Proof.
  intros Hfail. unfold backupPodcast. cbn zeta.
  fold (audioDirOf host outputDir) (imageDirOf host outputDir) (jsonDirOf host outputDir).
  unfold tryCatch at 1, bind at 1, ensureDir at 1.
  destruct Hfail as [e Haudio | e Haudio Himage | e Haudio Himage Hjson];
    rewrite Haudio; [reflexivity| |];
    unfold bind at 1, ensureDir at 1; cbn [trace written]; rewrite Himage;
    [unfold extend, consoleError, emit, fatalLog; cbn [trace written];
     rewrite <- app_assoc; reflexivity|].
  unfold bind at 1, ensureDir at 1. cbn [trace written].
  rewrite <- !app_assoc. cbn [app]. rewrite Hjson.
  unfold extend, consoleError, emit, fatalLog. cbn [trace written].
  rewrite <- app_assoc. reflexivity.
Qed.

(** What the run makes of the outcome of the loop: the completion line
    when it completes, the error line when an exception leaves it. *)
Lemma backupPodcast_loop (host : Host) (rssUrl outputDir xml : jsstring) (w w1 : World)
    (episodes : list PodcastEpisode) (r : result unit) :
  feedDelivered host w rssUrl outputDir xml ->
  parseRSSFeed host xml = Ok episodes ->
  forEach episodes
    (processEpisode host (audioDirOf host outputDir) (imageDirOf host outputDir)
       (jsonDirOf host outputDir))
    (extend w (setupEvents host rssUrl outputDir)) = (r, w1) ->
  backupPodcast host rssUrl outputDir w
  = (Ok tt, logged w1 match r with
                      | Ok _ => EvLog [completionMessage]
                      | Throw e => fatalLog e
                      end).
Proof.
  intros (Hdirs & response & Hfetch & Htext) Hparse Hloop.
  rewrite (backupPodcast_setup host rssUrl outputDir w Hdirs). cbn zeta.
  rewrite Hfetch, Htext, Hparse. unfold tryCatch, bind. rewrite Hloop.
  destruct r as [[]|e]; reflexivity.
Qed.

(** A rejected write of the sidecar is thrown by the metadata block. *)
Lemma metadataStep_rejected (host : Host) (jsonDir baseFilename : jsstring)
    (ep : PodcastEpisode) (w : World) (e : Thrown) :
  writeTextFileError host (trace w) (join host jsonDir (baseFilename ++ str ".json"))
  = Some e ->
  metadataStep host jsonDir baseFilename ep w = (Throw e, w).
Proof.
  intros Hwrite. unfold metadataStep, bind, Deno_writeTextFile. rewrite Hwrite.
  reflexivity.
Qed.

(** A failed download of the audio is reported and the block completes. *)
Lemma audioStep_failed (host : Host) (audioDir baseFilename t msg : jsstring)
    (ep : PodcastEpisode) (w w1 : World) :
  truthy (audioUrl ep) = true ->
  ToString (title ep) = Ok t ->
  downloadFile host (audioUrl ep) (join host audioDir (baseFilename ++ str ".mp3")) w
  = (Ok (downloadFailed msg), w1) ->
  audioStep host audioDir baseFilename ep w
  = (Ok tt, extend w1 [ EvLog [str "Audio download failed: " ++ t];
                        EvError [str "Error downloading audio: " ++ msg] ]).
Proof.
  intros Hurl Htext Hdownload. unfold audioStep. rewrite Hurl.
  unfold bind at 1. rewrite Hdownload.
  unfold bind, template, liftR. rewrite Htext. cbn [rbind].
  unfold consoleLog, consoleError, emit, extend. cbn.
  rewrite <- app_assoc. reflexivity.
Qed.

(** A failed download of the image is reported and the block completes. *)
Lemma imageStep_failed (host : Host) (imageDir baseFilename ext t msg : jsstring)
    (ep : PodcastEpisode) (w w1 : World) :
  truthy (imageUrl ep) = true ->
  imageExtension (imageUrl ep) = Ok ext ->
  ToString (title ep) = Ok t ->
  downloadFile host (imageUrl ep)
    (join host imageDir (baseFilename ++ str "." ++ ext)) w
  = (Ok (downloadFailed msg), w1) ->
  imageStep host imageDir baseFilename ep w
  = (Ok tt, extend w1 [ EvLog [str "Image download failed: " ++ t];
                        EvError [str "Error downloading image: " ++ msg] ]).
Proof.
  intros Hurl Hext Htext Hdownload. unfold imageStep. rewrite Hurl, Hext.
  unfold bind at 1, liftR at 1. unfold bind at 1. rewrite Hdownload.
  unfold bind, template, liftR. rewrite Htext. cbn [rbind].
  unfold consoleLog, consoleError, emit, extend. cbn.
  rewrite <- app_assoc. reflexivity.
Qed.

(** C9. [backupPodcast] never throws to its caller, and every failure at an
    I/O boundary ends as a result value or a log line.  A directory that
    cannot be created, and a failure of the request for the feed, of the
    reading of its text or of its parsing, is caught and logged with the
    fatal-error line; the run returns normally and no episode is processed.
    An exception that leaves the loop over the episodes, as the one of a
    rejected metadata write does, is caught and logged the same way, and
    the completion line is printed only when the loop has completed.  A
    failed download comes back as a result value, is reported with its
    error line, and the block goes on. *)
Theorem backupPodcast_never_throws
    (host : Host) (rssUrl outputDir : jsstring) (w : World) :
  (exists w' : World, backupPodcast host rssUrl outputDir w = (Ok tt, w'))
  /\ (forall (e : Thrown) (created : list Event),
        directoryFailure host w outputDir e created ->
        backupPodcast host rssUrl outputDir w
        = (Ok tt, extend w (created ++ [fatalLog e])))
  /\ (directoriesReady host w outputDir ->
      forall e : Thrown,
        feedFailure host w rssUrl outputDir e ->
        backupPodcast host rssUrl outputDir w
        = (Ok tt, extend w (setupEvents host rssUrl outputDir ++ [fatalLog e])))
  /\ (forall (xml : jsstring) (episodes : list PodcastEpisode) (r : result unit)
             (w1 : World),
        feedDelivered host w rssUrl outputDir xml ->
        parseRSSFeed host xml = Ok episodes ->
        forEach episodes
          (processEpisode host (audioDirOf host outputDir) (imageDirOf host outputDir)
             (jsonDirOf host outputDir))
          (extend w (setupEvents host rssUrl outputDir)) = (r, w1) ->
        backupPodcast host rssUrl outputDir w
        = (Ok tt, logged w1 match r with
                            | Ok _ => EvLog [completionMessage]
                            | Throw e => fatalLog e
                            end))
  /\ (forall (baseFilename : jsstring) (ep : PodcastEpisode) (w0 : World) (e : Thrown),
        writeTextFileError host (trace w0)
          (join host (jsonDirOf host outputDir) (baseFilename ++ str ".json")) = Some e ->
        metadataStep host (jsonDirOf host outputDir) baseFilename ep w0 = (Throw e, w0))
  /\ (forall (baseFilename t msg : jsstring) (ep : PodcastEpisode) (w0 w1 : World),
        truthy (audioUrl ep) = true ->
        ToString (title ep) = Ok t ->
        downloadFile host (audioUrl ep)
          (join host (audioDirOf host outputDir) (baseFilename ++ str ".mp3")) w0
        = (Ok (downloadFailed msg), w1) ->
        audioStep host (audioDirOf host outputDir) baseFilename ep w0
        = (Ok tt, extend w1 [ EvLog [str "Audio download failed: " ++ t];
                              EvError [str "Error downloading audio: " ++ msg] ]))
  /\ (forall (baseFilename ext t msg : jsstring) (ep : PodcastEpisode) (w0 w1 : World),
        truthy (imageUrl ep) = true ->
        imageExtension (imageUrl ep) = Ok ext ->
        ToString (title ep) = Ok t ->
        downloadFile host (imageUrl ep)
          (join host (imageDirOf host outputDir) (baseFilename ++ str "." ++ ext)) w0
        = (Ok (downloadFailed msg), w1) ->
        imageStep host (imageDirOf host outputDir) baseFilename ep w0
        = (Ok tt, extend w1 [ EvLog [str "Image download failed: " ++ t];
                              EvError [str "Error downloading image: " ++ msg] ])).
Proof.
  split; [apply backupPodcast_completes|].
  split; [intros e created; apply backupPodcast_directory_failure|].
  split; [intros Hdirs e Hfail; apply backupPodcast_feed_failure; assumption|].
  split; [intros xml episodes r w1; apply backupPodcast_loop|].
  split; [intros baseFilename ep w0 e; apply metadataStep_rejected|].
  split.
  - intros baseFilename t msg ep w0 w1. apply audioStep_failed.
  - intros baseFilename ext t msg ep w0 w1. apply imageStep_failed.
Qed.

Lemma backupPodcast_never_throws_witness :
  backupPodcast offlineHost (str "https://example.org/feed") (str "out") emptyWorld
  = (Ok tt,
     extend emptyWorld
       (setupEvents offlineHost (str "https://example.org/feed") (str "out")
        ++ [fatalLog (ErrorObject (str "network unreachable"))]))
  /\ backupPodcast noImageDirHost (str "https://example.org/feed") (str "out") emptyWorld
     = (Ok tt,
        extend emptyWorld
          ([EvEnsureDir (str "out/audio")]
           ++ [fatalLog (ErrorObject (str "Permission denied"))]))
  /\ trace (snd (backupPodcast lockedSidecarHost (str "https://example.org/feed")
                   (str "out") emptyWorld))
     = [ EvEnsureDir (str "out/audio");
         EvEnsureDir (str "out/images");
         EvEnsureDir (str "out/json");
         EvFetch (JStr (str "https://example.org/feed"));
         EvLog [str "Processing episode: First"];
         EvFetch (JStr (str "https://example.org/1.mp3"));
         EvLog [str "Audio download failed: First"];
         EvError [str "Error downloading audio: Failed to download: 404 Not Found"];
         EvError [str "Error during backup:"; str "Permission denied"] ].
Proof.
  split; [|split].
  - apply (proj1 (proj2 (proj2 (backupPodcast_never_throws offlineHost
                                  (str "https://example.org/feed") (str "out")
                                  emptyWorld)))).
    + repeat split.
    + apply FeedFetchFails. reflexivity.
  - apply (proj1 (proj2 (backupPodcast_never_throws noImageDirHost
                           (str "https://example.org/feed") (str "out") emptyWorld))).
    apply (ImageDirFails noImageDirHost emptyWorld (str "out")); reflexivity.
  - rewrite (proj1 (proj2 (proj2 (proj2 (backupPodcast_never_throws lockedSidecarHost
                                           (str "https://example.org/feed") (str "out")
                                           emptyWorld))))
               [1; 2; 3] twoEpisodes
               (Throw (ErrorObject (str "Permission denied")))
               (extend emptyWorld
                  [ EvEnsureDir (str "out/audio");
                    EvEnsureDir (str "out/images");
                    EvEnsureDir (str "out/json");
                    EvFetch (JStr (str "https://example.org/feed"));
                    EvLog [str "Processing episode: First"];
                    EvFetch (JStr (str "https://example.org/1.mp3"));
                    EvLog [str "Audio download failed: First"];
                    EvError [str "Error downloading audio: Failed to download: 404 Not Found"] ])).
    + reflexivity.
    + split; [repeat split|]. exists (okResponse [1; 2; 3]). split; reflexivity.
    + vm_compute. reflexivity.
    + vm_compute. reflexivity.
Defined.

(** An item without an enclosure cannot be turned into an episode. *)
Lemma itemToEpisode_without_enclosure (fields : list (jsstring * jsval)) :
  lookupField (str "enclosure") fields = JUndefined ->
  exists e : Thrown,
    itemToEpisode (JObj fields) = Throw e
    /\ ((exists g : jsval, get (lookupField (str "guid") fields) (str "#text") = Ok g) ->
        e = TypeError (str "Cannot read properties of undefined (reading '@url')")).
Proof.
  intros Hmissing. unfold itemToEpisode. cbn [get rbind].
  destruct (get (lookupField (str "guid") fields) (str "#text")) as [g|e] eqn:Hguid;
    cbn [rbind].
  - destruct (getOpt_completes (lookupField (str "itunes:image") fields) (str "@href"))
      as [href ->].
    cbn [rbind]. rewrite Hmissing. cbn [get rbind].
    eexists. split; [reflexivity|]. intros _. reflexivity.
  - exists e. split; [reflexivity|]. intros [g Hg]. discriminate Hg.
Qed.

(** C10. When an item of the feed has no enclosure, [parseRSSFeed] throws;
    with the items before it well-formed and the item's guid present, it is
    the read of the item's audio URL that throws.  The exception reaches the
    handler of [backupPodcast] only: the run ends with the fatal-error line
    and no episode is processed, whatever the other items are. *)
Theorem missing_enclosure_is_fatal
    (host : Host) (rssUrl outputDir xml : jsstring) (w : World)
    (doc : jsval) (items : list jsval) (fields : list (jsstring * jsval)) :
  feedDelivered host w rssUrl outputDir xml ->
  parseXml host xml = Ok doc ->
  feedItems doc items ->
  In (JObj fields) items ->
  lookupField (str "enclosure") fields = JUndefined ->
  exists e : Thrown,
    parseRSSFeed host xml = Throw e
    /\ backupPodcast host rssUrl outputDir w
       = (Ok tt, extend w (setupEvents host rssUrl outputDir ++ [fatalLog e]))
    /\ (forall (before after : list jsval) (episodes : list PodcastEpisode),
          items = before ++ JObj fields :: after ->
          (2 <= length items)%nat ->
          mapR itemToEpisode before = Ok episodes ->
          (exists g : jsval,
             get (lookupField (str "guid") fields) (str "#text") = Ok g) ->
          e = TypeError (str "Cannot read properties of undefined (reading '@url')")).
Proof.
  intros (Hdirs & response & Hfetch & Htext) Hdoc Hitems Hin Hmissing.
  destruct (itemToEpisode_without_enclosure fields Hmissing) as (e0 & Hthrow & Hreason).
  assert (Hparse : exists e : Thrown,
             parseRSSFeed host xml = Throw e
             /\ ((2 <= length items)%nat ->
                 parseRSSFeed host xml = mapR itemToEpisode items)).
  { rewrite (parseRSSFeed_items host xml doc items Hdoc Hitems).
    destruct items as [|a [|b rest]].
    - destruct Hin.
    - destruct Hin as [->|[]]. eexists. split; [reflexivity|]. simpl; lia.
    - destruct (mapR_some_throw itemToEpisode (a :: b :: rest) (JObj fields) e0
                  Hin Hthrow) as [e He].
      exists e. split; [exact He|]. reflexivity. }
  destruct Hparse as (e & Hparse & Hmany).
  exists e. split; [exact Hparse|]. split.
  - apply (backupPodcast_feed_failure host rssUrl outputDir w e Hdirs).
    apply (FeedParseFails host w rssUrl outputDir response xml e Hfetch Htext Hparse).
  - intros before after episodes -> Hlen Hbefore Hguid.
    rewrite (Hmany Hlen) in Hparse.
    rewrite (mapR_first_throw itemToEpisode before after (JObj fields) episodes e0
               Hbefore Hthrow) in Hparse.
    injection Hparse as <-. apply Hreason. exact Hguid.
Qed.

Lemma missing_enclosure_is_fatal_witness :
  exists e : Thrown,
    parseRSSFeed brokenFeedHost [1; 2; 3] = Throw e
    /\ backupPodcast brokenFeedHost (str "https://example.org/feed") (str "out")
         emptyWorld
       = (Ok tt,
          extend emptyWorld
            (setupEvents brokenFeedHost (str "https://example.org/feed") (str "out")
             ++ [fatalLog e]))
    /\ e = TypeError (str "Cannot read properties of undefined (reading '@url')").
Proof.
  destruct (missing_enclosure_is_fatal brokenFeedHost (str "https://example.org/feed")
              (str "out") [1; 2; 3] emptyWorld
              (feedDocument [firstItem; JObj noEnclosureFields])
              [firstItem; JObj noEnclosureFields] noEnclosureFields)
    as (e & Hparse & Hrun & Hwhy).
  - split; [repeat split|]. exists (okResponse [1; 2; 3]). split; reflexivity.
  - reflexivity.
  - eexists; eexists. repeat split; reflexivity.
  - right; left; reflexivity.
  - reflexivity.
  - exists e. split; [exact Hparse|]. split; [exact Hrun|].
    destruct (itemToEpisode firstItem) as [ep|] eqn:Hfirst; [|discriminate Hfirst].
    apply (Hwhy [firstItem] [] [ep]).
    + reflexivity.
    + simpl; lia.
    + cbn [mapR]. rewrite Hfirst. reflexivity.
    + eexists. reflexivity.
Defined.







(** ** The image extension *)

Lemma split_without_separator (sep : N) (s : jsstring) :
  ~ In sep s -> split sep s = [s].
Proof.
  induction s as [|c s IH]; simpl; [reflexivity|]. intros Hnot.
  destruct (N.eqb_spec c sep) as [->|Hne]; [tauto|].
  rewrite IH; [reflexivity|tauto].
Qed.

(** What the code computes for a URL without any dot: the URL itself. *)
Lemma extensionOf_without_dot (url : jsstring) :
  url <> [] -> ~ In dot url -> extensionOf url = url.
Proof.
  intros Hne Hnot. unfold extensionOf. rewrite (split_without_separator dot url Hnot).
  simpl. destruct url; [congruence|reflexivity].
Qed.

Lemma split_nonempty (sep : N) (s : jsstring) : split sep s <> [].
Proof.
  destruct s as [|c s]; simpl; [discriminate|].
  destruct (c =? sep); [discriminate|]. destruct (split sep s); discriminate.
Qed.

Lemma last_skip_first {A} (x : A) (l : list A) : l <> [] -> last (x :: l) = last l.
Proof. destruct l; [congruence|reflexivity]. Qed.

(** The pieces of a string with a separator in it: at least two, and the
    last one is the last piece of what follows the separator. *)
Lemma split_around_separator (sep : N) (before after : jsstring) :
  exists (piece : jsstring) (pieces : list jsstring),
    split sep (before ++ sep :: after) = piece :: pieces
    /\ pieces <> []
    /\ last pieces = last (split sep after).
Proof.
  induction before as [|c before (piece & pieces & Hsplit & Hne & Hlast)]; simpl.
  - rewrite N.eqb_refl. exists [], (split sep after).
    split; [reflexivity|]. split; [apply split_nonempty|reflexivity].
  - rewrite Hsplit. destruct (c =? sep).
    + exists [], (piece :: pieces). split; [reflexivity|].
      split; [discriminate|]. rewrite (last_skip_first piece pieces Hne). exact Hlast.
    + exists (c :: piece), pieces. auto.
Qed.

(** Where the URL has a dot, the code does take what follows the last dot,
    unless nothing follows it. *)
Lemma extensionOf_after_last_dot (before after : jsstring) :
  ~ In dot after ->
  extensionOf (before ++ dot :: after)
  = if (length after =? 0)%nat then str "jpg" else after.
Proof.
  intros Hnot. unfold extensionOf.
  destruct (split_around_separator dot before after)
    as (piece & pieces & -> & Hne & Hlast).
  rewrite (last_skip_first piece pieces Hne), Hlast,
    (split_without_separator dot after Hnot).
  reflexivity.
Qed.

(** C7 (the code departs from the claim).  For an image URL without a dot,
    here [http://localhost/cover], the extension is not [jpg]: it is the
    whole URL, and the image goes to [images/pilot.http://localhost/cover]. *)
Theorem image_extension_without_dot_is_not_jpg :
  ~ In dot (str "http://localhost/cover")
  /\ imageExtension (imageUrl coverEpisode) = Ok (str "http://localhost/cover")
  /\ imageExtension (imageUrl coverEpisode) <> Ok (str "jpg")
  /\ imagePathOf servingHost (str "out") coverEpisode
     = str "out/images/pilot.http://localhost/cover"
  /\ trace (snd (imageStep servingHost (str "out/images") (str "pilot") coverEpisode
                   emptyWorld))
     = [ EvFetch (JStr (str "http://localhost/cover"));
         EvWriteFile (str "out/images/pilot.http://localhost/cover") [1; 2; 3];
         EvLog [str "Image download successful: Pilot"] ].
Proof.
  split.
  - simpl. intros H. repeat (destruct H as [H|H]; [discriminate H|]). exact H.
  - split; [reflexivity|]. split; [discriminate|]. split; reflexivity.
Qed.

(** * Further properties of the code *)

(** ** [sanitizeFilename] *)

Lemma specSanitizeChar_idempotent (c : N) :
  specSanitizeChar (specSanitizeChar c) = specSanitizeChar c.
Proof. char_cases. Qed.

Lemma specSanitizeChar_fixed (c : N) :
  specSanitizeChar c = c <-> isSafeChar c = true.
Proof. char_cases; split; intros; (reflexivity || discriminate || lia). Qed.

Lemma specSanitizeChar_same (c d : N) :
  specSanitizeChar c = specSanitizeChar d <-> sameAfterSanitizing c d.
Proof.
  unfold sameAfterSanitizing.
  char_cases; split; intros H; try destruct H as [H1 H2];
    repeat split; try intros _; try specialize (H2 eq_refl);
    (reflexivity || discriminate || lia).
Qed.

(** X1. Sanitizing twice is sanitizing once, and the names that
    [sanitizeFilename] leaves unchanged are exactly those that already match
    [^[a-z0-9_]*$]. *)
Theorem sanitizeFilename_idempotent (host : Host) (s : jsstring) :
  sanitizeFilename host (sanitizeFilename host s) = sanitizeFilename host s
  /\ (sanitizeFilename host s = s <-> matchesSafePattern s = true).
Proof.
  rewrite !sanitizeFilename_spec. split.
  - unfold specSanitize. rewrite map_map. apply map_ext.
    intros c. apply specSanitizeChar_idempotent.
  - induction s as [|c s IH]; simpl; [tauto|].
    rewrite andb_true_iff, <- IH, <- specSanitizeChar_fixed.
    split; [intros [= Hc Hs]; auto|intros [-> ->]; reflexivity].
Qed.

(** X2. Two titles get the same base name exactly when they have the same
    length and agree position by position up to letter case, with any
    character outside [[A-Za-z0-9]] standing for any other. *)
Theorem sanitizeFilename_collisions (host : Host) (s t : jsstring) :
  sanitizeFilename host s = sanitizeFilename host t
  <-> Forall2 sameAfterSanitizing s t.
Proof.
  rewrite !sanitizeFilename_spec. unfold specSanitize. revert t.
  induction s as [|c s IH]; intros [|d t]; simpl.
  - split; [constructor|reflexivity].
  - split; [discriminate|inversion 1].
  - split; [discriminate|inversion 1].
  - split.
    + intros [= Hc Hs]. constructor; [apply specSanitizeChar_same, Hc|apply IH, Hs].
    + inversion 1 as [|? ? ? ? Hc Hs]; subst.
      apply specSanitizeChar_same in Hc. apply IH in Hs. congruence.
Qed.

(** ** The image extension *)

Lemma split_pieces_without_separator (sep : N) (s : jsstring) :
  Forall (fun piece => ~ In sep piece) (split sep s).
Proof.
  induction s as [|c s IH]; simpl; [repeat constructor; tauto|].
  destruct (N.eqb_spec c sep) as [->|Hne].
  - constructor; [tauto|exact IH].
  - destruct (split sep s) as [|piece pieces]; [repeat constructor; simpl; tauto|].
    inversion IH as [|? ? Hpiece Hpieces]; subst.
    constructor; [simpl; tauto|exact Hpieces].
Qed.

Lemma last_in_list {A} (l : list A) (x : A) : last l = Some x -> In x l.
Proof.
  induction l as [|y [|z l] IH]; simpl; [discriminate| |].
  - intros [= ->]. auto.
  - intros H. right. apply IH. exact H.
Qed.

Lemma extensionOf_nonempty (url : jsstring) : extensionOf url <> [].
Proof.
  unfold extensionOf. destruct (last (split dot url)) as [piece|]; [|discriminate].
  destruct piece; discriminate.
Qed.

Lemma jpg_without_dot : ~ In dot (str "jpg").
Proof. simpl. intros H. repeat (destruct H as [H|H]; [discriminate H|]). exact H. Qed.

Lemma extensionOf_without_dots (url : jsstring) : ~ In dot (extensionOf url).
Proof.
  unfold extensionOf. destruct (last (split dot url)) as [piece|] eqn:Hlast;
    [|apply jpg_without_dot].
  pose proof (split_pieces_without_separator dot url) as Hall.
  rewrite Forall_forall in Hall.
  specialize (Hall piece (proj2 (list_elem_of_In _ _) (last_in_list _ _ Hlast))).
  destruct piece as [|c piece]; [apply jpg_without_dot|exact Hall].
Qed.

(** X3. The extension the orchestrator gives an image file is never empty
    and never contains a dot; when something follows the last dot of the
    URL, the extension is exactly that. *)
Theorem extensionOf_shape (url : jsstring) :
  extensionOf url <> []
  /\ ~ In dot (extensionOf url)
  /\ (forall before after : jsstring,
        url = before ++ dot :: after -> ~ In dot after -> after <> [] ->
        extensionOf url = after).
Proof.
  split; [apply extensionOf_nonempty|]. split; [apply extensionOf_without_dots|].
  intros before after -> Hnot Hne.
  rewrite (extensionOf_after_last_dot before after Hnot).
  destruct after; [congruence|reflexivity].
Qed.

Lemma extensionOf_shape_witness :
  extensionOf (str "https://cdn.example.org/covers/ep.1.png") = str "png".
Proof.
  apply (proj2 (proj2 (extensionOf_shape (str "https://cdn.example.org/covers/ep.1.png")))
           (str "https://cdn.example.org/covers/ep.1")).
  - reflexivity.
  - simpl. intros H. repeat (destruct H as [H|H]; [discriminate H|]). exact H.
  - discriminate.
Defined.

(** ** [parseRSSFeed] *)

Lemma get_of_nullish (v : jsval) (k : jsstring) :
  nullish v = true -> exists e : Thrown, get v k = Throw e.
Proof. destruct v; simpl; try discriminate; eauto. Qed.

Lemma get_of_value (v : jsval) (k : jsstring) :
  nullish v = false -> exists r : jsval, get v k = Ok r.
Proof. destruct v; simpl; try discriminate; eauto. Qed.

(** Without a guid to read ['#text'] from, the callback throws. *)
Lemma itemToEpisode_needs_guid (fields : list (jsstring * jsval)) (ep : PodcastEpisode) :
  itemToEpisode (JObj fields) = Ok ep ->
  nullish (lookupField (str "guid") fields) = false.
Proof.
  intros Hep. unfold itemToEpisode in Hep. cbn [get rbind] in Hep.
  destruct (nullish (lookupField (str "guid") fields)) eqn:Hguid; [|reflexivity].
  destruct (get_of_nullish _ (str "#text") Hguid) as [e He].
  rewrite He in Hep. discriminate Hep.
Qed.

Lemma optionalInt_completes (v : jsval) :
  (exists field : option jsnum, optionalInt v = Ok field) <-> parsable v.
Proof.
  unfold optionalInt, parsable, convertible, parseInt.
  destruct (truthy v); [|split; [discriminate|eauto]].
  destruct (ToString v) as [s|e]; cbn [rbind].
  - split; eauto.
  - split; [intros [field H]; discriminate H|].
    intros H. destruct (H eq_refl) as [s Hs]. discriminate Hs.
Qed.

(** X4. An item becomes an episode exactly when it is an object whose
    [guid] and [enclosure] are neither undefined nor null and whose
    [itunes:season] and [itunes:episode], when truthy, can be converted to
    the string [parseInt] reads; in every other case the callback throws. *)
Theorem itemToEpisode_succeeds_iff (item : jsval) :
  (exists ep : PodcastEpisode, itemToEpisode item = Ok ep)
  <-> (exists fields : list (jsstring * jsval),
         item = JObj fields
         /\ nullish (lookupField (str "guid") fields) = false
         /\ nullish (lookupField (str "enclosure") fields) = false
         /\ parsable (lookupField (str "itunes:season") fields)
         /\ parsable (lookupField (str "itunes:episode") fields)).
Proof.
  split.
  - intros [ep Hep]. destruct item as [| | b | n | s | fields | elems];
      try discriminate Hep.
    exists fields. split; [reflexivity|].
    split; [exact (itemToEpisode_needs_guid fields ep Hep)|].
    unfold itemToEpisode in Hep. cbn [get rbind] in Hep.
    destruct (get (lookupField (str "guid") fields) (str "#text")); [|discriminate Hep].
    cbn [rbind] in Hep.
    destruct (getOpt (lookupField (str "itunes:image") fields) (str "@href"));
      [|discriminate Hep].
    cbn [rbind] in Hep.
    destruct (nullish (lookupField (str "enclosure") fields)) eqn:Henc.
    { destruct (get_of_nullish _ (str "@url") Henc) as [e He].
      rewrite He in Hep. discriminate Hep. }
    split; [reflexivity|].
    destruct (get (lookupField (str "enclosure") fields) (str "@url"));
      [|discriminate Hep].
    cbn [rbind] in Hep.
    destruct (optionalInt (lookupField (str "itunes:season") fields)) as [season_|]
      eqn:Hseason; [|discriminate Hep].
    cbn [rbind] in Hep.
    destruct (optionalInt (lookupField (str "itunes:episode") fields)) as [episode_|]
      eqn:Hepisode; [|discriminate Hep].
    split; apply optionalInt_completes; eauto.
  - intros (fields & -> & Hguid & Henc & Hseason & Hepisode).
    unfold itemToEpisode. cbn [get rbind].
    destruct (get_of_value _ (str "#text") Hguid) as [g ->]. cbn [rbind].
    destruct (getOpt_completes (lookupField (str "itunes:image") fields) (str "@href"))
      as [href ->]. cbn [rbind].
    destruct (get_of_value _ (str "@url") Henc) as [u ->]. cbn [rbind].
    destruct (proj2 (optionalInt_completes _) Hseason) as [season_ ->]. cbn [rbind].
    destruct (proj2 (optionalInt_completes _) Hepisode) as [episode_ ->]. cbn [rbind].
    eauto.
Qed.

(** X5. Every episode the parser builds has a [guid] and an [imageUrl] that
    are neither undefined nor null: the guid is the text of a text-wrapper
    node and the node itself otherwise, and an image URL that is not truthy
    is the empty string.  The title, dates and link are those of the item,
    unchanged. *)
Theorem itemToEpisode_fields (fields : list (jsstring * jsval)) (ep : PodcastEpisode) :
  itemToEpisode (JObj fields) = Ok ep ->
  nullish (guid ep) = false
  /\ nullish (imageUrl ep) = false
  /\ (truthy (imageUrl ep) = false -> imageUrl ep = JStr [])
  /\ (forall s : jsstring,
        lookupField (str "guid") fields = JStr s -> guid ep = JStr s)
  /\ (forall (wrapper : list (jsstring * jsval)) (t : jsstring),
        lookupField (str "guid") fields = JObj wrapper ->
        lookupField (str "#text") wrapper = JStr t -> t <> [] ->
        guid ep = JStr t)
  /\ title ep = lookupField (str "title") fields
  /\ pubDate ep = lookupField (str "pubDate") fields
  /\ duration ep = lookupField (str "itunes:duration") fields
  /\ description ep = lookupField (str "description") fields
  /\ link ep = lookupField (str "link") fields.
Proof.
  intros Hep.
  pose proof (itemToEpisode_needs_guid fields ep Hep) as Hguid.
  unfold itemToEpisode in Hep. cbn [get rbind] in Hep.
  destruct (get (lookupField (str "guid") fields) (str "#text")) as [text|] eqn:Htext;
    [|discriminate Hep].
  cbn [rbind] in Hep.
  destruct (getOpt (lookupField (str "itunes:image") fields) (str "@href")) as [href|];
    [|discriminate Hep].
  cbn [rbind] in Hep.
  destruct (get (lookupField (str "enclosure") fields) (str "@url")); [|discriminate Hep].
  cbn [rbind] in Hep.
  destruct (optionalInt (lookupField (str "itunes:season") fields));
    [|discriminate Hep].
  cbn [rbind] in Hep.
  destruct (optionalInt (lookupField (str "itunes:episode") fields));
    [|discriminate Hep].
  cbn [rbind] in Hep. injection Hep as <-.
  cbn [title guid pubDate duration description link imageUrl].
  repeat split.
  - unfold orElse. destruct (truthy text) eqn:Ht; [|exact Hguid].
    destruct text; simpl in Ht |- *; congruence.
  - unfold orElse. destruct (truthy href) eqn:Hh; [|reflexivity].
    destruct href; simpl in Hh |- *; congruence.
  - unfold orElse. destruct (truthy href) eqn:Hh; [congruence|reflexivity].
  - intros s Hs. rewrite Hs in Htext |- *. injection Htext as <-. reflexivity.
  - intros wrapper t Hw Ht Hne. rewrite Hw in Htext |- *. cbn [get] in Htext.
    injection Htext as <-. rewrite Ht. unfold orElse.
    rewrite (truthy_text t Hne). reflexivity.
Qed.

Lemma itemToEpisode_fields_witness :
  exists ep : PodcastEpisode,
    itemToEpisode firstItem = Ok ep
    /\ guid ep = JStr (str "First")
    /\ imageUrl ep = JStr [].
Proof.
  destruct (itemToEpisode firstItem) as [ep|] eqn:Hep; [|discriminate Hep].
  exists ep. split; [reflexivity|].
  pose proof (itemToEpisode_fields _ ep Hep)
    as (_ & _ & Himage & _ & Hwrapper & _).
  split.
  - apply (Hwrapper [ (str "@isPermaLink", JBool false);
                       (str "#text", JStr (str "First")) ] (str "First"));
      [reflexivity|reflexivity|discriminate].
  - apply Himage. injection Hep as <-. reflexivity.
Defined.

(** X6. [parseRSSFeed] returns episodes exactly when [channel.item] is an
    array all of whose elements become episodes, and then it returns one
    episode per element, in the order of the array.  Whatever else
    [channel.item] is, a single item object or nothing at all included, the
    parse throws; a syntax error of the XML layer is passed on. *)
Theorem parseRSSFeed_succeeds_iff (host : Host) (xml : jsstring) :
  (forall (doc rss channel items : jsval) (episodes : list PodcastEpisode),
     parseXml host xml = Ok doc ->
     get doc (str "rss") = Ok rss ->
     get rss (str "channel") = Ok channel ->
     get channel (str "item") = Ok items ->
     (parseRSSFeed host xml = Ok episodes
      <-> exists elems : list jsval,
            items = JArr elems
            /\ Forall2 (fun item ep => itemToEpisode item = Ok ep) elems episodes))
  /\ (forall e : Thrown,
        parseXml host xml = Throw e -> parseRSSFeed host xml = Throw e).
Proof.
  split.
  - intros doc rss channel items episodes Hdoc Hrss Hchannel Hitems.
    unfold parseRSSFeed. rewrite Hdoc. cbn [rbind].
    rewrite Hrss. cbn [rbind]. rewrite Hchannel. cbn [rbind].
    rewrite Hitems. cbn [rbind]. split.
    + intros Hmap. destruct items; try discriminate Hmap.
      eexists. split; [reflexivity|]. apply mapR_pointwise. exact Hmap.
    + intros (elems & -> & Hall). cbn [callMap]. clear Hitems.
      induction Hall as [|item ep elems episodes Hitem _ IH]; [reflexivity|].
      cbn [mapR]. rewrite Hitem. cbn [rbind]. rewrite IH. reflexivity.
  - intros e He. unfold parseRSSFeed. rewrite He. reflexivity.
Qed.

Lemma parseRSSFeed_succeeds_iff_witness :
  parseRSSFeed twoItemHost [1; 2; 3] = Ok twoEpisodes
  /\ parseRSSFeed offlineHost [1; 2; 3] = Throw (ErrorObject (str "no document")).
Proof.
  split.
  - apply (proj1 (parseRSSFeed_succeeds_iff twoItemHost [1; 2; 3])
             (feedDocument [firstItem; secondItem]) _ _ _ twoEpisodes
             eq_refl eq_refl eq_refl eq_refl).
    exists [firstItem; secondItem]. split; [reflexivity|].
    repeat constructor.
  - apply (proj2 (parseRSSFeed_succeeds_iff offlineHost [1; 2; 3])). reflexivity.
Defined.

(** ** What a computation can do to the world *)

Lemma replay_app (events events' : list Event) (files : gmap jsstring FileData) :
  replay (events ++ events') files = replay events' (replay events files).
Proof. apply fold_left_app. Qed.

Lemma fetchCount_app (events events' : list Event) :
  fetchCount (events ++ events') = (fetchCount events + fetchCount events')%nat.
Proof. unfold fetchCount. rewrite filter_app, length_app. reflexivity. Qed.

Lemma bounded_app (P : Event -> Prop) (n n' : nat) (events events' : list Event) :
  bounded P n events -> bounded P n' events' -> bounded P (n + n') (events ++ events').
Proof.
  intros [Hall Hn] [Hall' Hn']. split; [apply Forall_app; auto|].
  rewrite fetchCount_app. lia.
Qed.

Lemma bounded_more (P : Event -> Prop) (n n' : nat) (events : list Event) :
  (n <= n')%nat -> bounded P n events -> bounded P n' events.
Proof. intros Hle [Hall Hn]. split; [exact Hall|lia]. Qed.

Lemma bounded_nil (P : Event -> Prop) (n : nat) : bounded P n [].
Proof. split; [constructor|unfold fetchCount; simpl; lia]. Qed.

Lemma effects_weaken {A} (m : M A) (R R' : list Event -> Prop) :
  (forall events, R events -> R' events) -> effects m R -> effects m R'.
Proof.
  intros Himp Hm w. destruct (Hm w) as (events & Ht & Hw & HR). eauto.
Qed.

Lemma effects_quiet {A} (m : M A) (P : Event -> Prop) (n : nat) :
  (forall w, snd (m w) = w) -> effects m (bounded P n).
Proof.
  intros Hsame w. exists []. rewrite Hsame, app_nil_r.
  repeat split; [constructor|unfold fetchCount; simpl; lia].
Qed.

Lemma effects_emit (P : Event -> Prop) (n : nat) (e : Event) :
  P e -> isFetch e = false -> writePath e = None -> effects (emit e) (bounded P n).
Proof.
  intros HP Hfetch Hwrite w. exists [e]. cbn.
  split; [reflexivity|]. split.
  - destruct e; try discriminate Hwrite; reflexivity.
  - split; [repeat constructor; exact HP|].
    unfold fetchCount. cbn. rewrite Hfetch. simpl. lia.
Qed.

Lemma effects_bind {A B} (m : M A) (k : A -> M B) (P : Event -> Prop) (n n' : nat) :
  effects m (bounded P n) ->
  (forall a : A, effects (k a) (bounded P n')) ->
  effects (bind m k) (bounded P (n + n')).
Proof.
  intros Hm Hk w. destruct (Hm w) as (events & Ht & Hw & HR).
  unfold bind. destruct (m w) as [[a|e] w1]; cbn [snd] in *.
  - destruct (Hk a w1) as (events' & Ht' & Hw' & HR').
    exists (events ++ events').
    rewrite Ht', Ht, Hw', Hw, replay_app, app_assoc.
    split; [reflexivity|]. split; [reflexivity|]. apply bounded_app; assumption.
  - exists events. split; [exact Ht|]. split; [exact Hw|].
    apply (bounded_more P n); [lia|exact HR].
Qed.

Lemma effects_tryCatch {A} (body : M A) (handler : Thrown -> M A)
    (P : Event -> Prop) (n n' : nat) :
  effects body (bounded P n) ->
  (forall e : Thrown, effects (handler e) (bounded P n')) ->
  effects (tryCatch body handler) (bounded P (n + n')).
Proof.
  intros Hm Hk w. destruct (Hm w) as (events & Ht & Hw & HR).
  unfold tryCatch. destruct (body w) as [[a|e] w1]; cbn [snd] in *.
  - exists events. split; [exact Ht|]. split; [exact Hw|].
    apply (bounded_more P n); [lia|exact HR].
  - destruct (Hk e w1) as (events' & Ht' & Hw' & HR').
    exists (events ++ events').
    rewrite Ht', Ht, Hw', Hw, replay_app, app_assoc.
    split; [reflexivity|]. split; [reflexivity|]. apply bounded_app; assumption.
Qed.

Lemma effects_forEach {A} (xs : list A) (body : A -> M unit)
    (P : Event -> Prop) (n : nat) :
  (forall x : A, effects (body x) (bounded P n)) ->
  effects (forEach xs body) (bounded P (length xs * n)).
Proof.
  intros Hbody. induction xs as [|x xs IH]; cbn [forEach length].
  - apply effects_quiet. reflexivity.
  - apply (effects_bind (body x) (fun _ => forEach xs body) P n (length xs * n)).
    + apply Hbody.
    + intros _. exact IH.
Qed.

Lemma effects_fetch (host : Host) (url : jsval) (P : Event -> Prop) :
  P (EvFetch url) -> effects (fetch host url) (bounded P 1).
Proof.
  intros HP w. exists [EvFetch url]. cbn.
  repeat split; [repeat constructor; exact HP|unfold fetchCount; simpl; lia].
Qed.

Lemma effects_writeFile (host : Host) (path : jsstring) (data : list N)
    (P : Event -> Prop) :
  P (EvWriteFile path data) -> effects (Deno_writeFile host path data) (bounded P 0).
Proof.
  intros HP w. unfold Deno_writeFile.
  destruct (writeFileError host (trace w) path).
  - exists []. cbn. rewrite app_nil_r. repeat split; [constructor|apply le_n].
  - exists [EvWriteFile path data]. cbn.
    repeat split; [repeat constructor; exact HP|apply le_n].
Qed.

Lemma effects_writeTextFile (host : Host) (path data : jsstring) (P : Event -> Prop) :
  P (EvWriteTextFile path data) ->
  effects (Deno_writeTextFile host path data) (bounded P 0).
Proof.
  intros HP w. unfold Deno_writeTextFile.
  destruct (writeTextFileError host (trace w) path).
  - exists []. cbn. rewrite app_nil_r. repeat split; [constructor|apply le_n].
  - exists [EvWriteTextFile path data]. cbn.
    repeat split; [repeat constructor; exact HP|apply le_n].
Qed.

Lemma effects_ensureDir (host : Host) (dir : jsstring) (P : Event -> Prop) :
  P (EvEnsureDir dir) -> effects (ensureDir host dir) (bounded P 0).
Proof.
  intros HP w. unfold ensureDir.
  destruct (ensureDirError host (trace w) dir).
  - exists []. cbn. rewrite app_nil_r. repeat split; [constructor|apply le_n].
  - exists [EvEnsureDir dir]. cbn.
    repeat split; [repeat constructor; exact HP|apply le_n].
Qed.

(** [downloadFile]: one request, at most one write, to [path]. *)
Lemma effects_downloadFile (host : Host) (url : jsval) (path : jsstring)
    (P : Event -> Prop) :
  P (EvFetch url) ->
  (forall data : list N, P (EvWriteFile path data)) ->
  effects (downloadFile host url path) (bounded P 1).
Proof.
  intros Hfetch Hwrite. unfold downloadFile.
  apply (effects_tryCatch _ _ P 1 0).
  - apply (effects_bind _ _ P 1 0); [apply effects_fetch; exact Hfetch|].
    intros response.
    apply (effects_bind _ _ P 0 0).
    { destruct (negb (ok response)); apply effects_quiet; reflexivity. }
    intros _. apply (effects_bind _ _ P 0 0); [apply effects_quiet; reflexivity|].
    intros data. apply (effects_bind _ _ P 0 0); [apply effects_writeFile, Hwrite|].
    intros _. apply effects_quiet. reflexivity.
  - intros e. apply effects_quiet. reflexivity.
Qed.

Lemma effects_bind_liftR {A B} (r : result A) (k : A -> M B)
    (P : Event -> Prop) (n : nat) :
  (forall a : A, r = Ok a -> effects (k a) (bounded P n)) ->
  effects (bind (liftR r) k) (bounded P n).
Proof.
  intros Hk w. unfold bind, liftR. destruct r as [a|e].
  - apply (Hk a eq_refl).
  - exists []. cbn. rewrite app_nil_r.
    split; [reflexivity|]. split; [reflexivity|]. apply bounded_nil.
Qed.

(** ** [downloadFile] *)


(** ** The effects of a run *)

Lemma sanitized_base_is_safe (host : Host) (v : jsval) (base : jsstring) :
  callSanitizeFilename host v = Ok base -> matchesSafePattern base = true.
Proof.
  destruct v; try discriminate. intros [= <-].
  rewrite sanitizeFilename_spec. apply specSanitize_safe.
Qed.

Lemma imageExtension_shape (v : jsval) (ext : jsstring) :
  imageExtension v = Ok ext -> ext <> [] /\ ~ In dot ext.
Proof.
  destruct v; try discriminate. intros [= <-].
  split; [apply extensionOf_nonempty|apply extensionOf_without_dots].
Qed.

Lemma template_completes (prefix : jsstring) (v : jsval) (line : jsstring) :
  template prefix v = Ok line ->
  exists t : jsstring, ToString v = Ok t /\ line = prefix ++ t.
Proof.
  unfold template. destruct (ToString v) as [t|e]; cbn [rbind]; [|discriminate].
  intros [= <-]. eauto.
Qed.

Lemma effects_weaken_bounded {A} (m : M A) (P Q : Event -> Prop) (n : nat) :
  (forall ev, P ev -> Q ev) -> effects m (bounded P n) -> effects m (bounded Q n).
Proof.
  intros Himp. apply effects_weaken. intros events [Hall Hn].
  split; [|exact Hn]. eapply Forall_impl; [exact Hall|exact Himp].
Qed.

Lemma effects_forEach_in {A} (xs : list A) (body : A -> M unit)
    (P : Event -> Prop) (n : nat) :
  (forall x : A, In x xs -> effects (body x) (bounded P n)) ->
  effects (forEach xs body) (bounded P (length xs * n)).
Proof.
  induction xs as [|x xs IH]; intros Hbody; cbn [forEach length].
  - apply effects_quiet. reflexivity.
  - change (S (length xs) * n)%nat with (n + length xs * n)%nat.
    apply effects_bind; [apply Hbody; left; reflexivity|].
    intros _. apply IH. intros y Hy. apply Hbody. right. exact Hy.
Qed.

(** A download and its report: one request. *)
Lemma effects_report (host : Host) (url : jsval) (path : jsstring)
    (prefix errorLine : DownloadResult -> jsstring) (v : jsval) (P : Event -> Prop) :
  P (EvFetch url) ->
  (forall data : list N, P (EvWriteFile path data)) ->
  (forall (r : DownloadResult) (t : jsstring),
     ToString v = Ok t -> P (EvLog [prefix r ++ t])) ->
  (forall r : DownloadResult, P (EvError [errorLine r])) ->
  effects (r <- downloadFile host url path ;;
           line <- liftR (template (prefix r) v) ;;
           consoleLog [line] ;;
           if negb (success r) then consoleError [errorLine r] else ret tt)
    (bounded P 1).
Proof.
  intros Hfetch Hwrite Hlog Herror.
  apply (effects_bind _ _ P 1 0); [apply effects_downloadFile; assumption|].
  intros r. apply effects_bind_liftR. intros line Hline.
  destruct (template_completes _ _ _ Hline) as (t & Ht & ->).
  apply (effects_bind _ _ P 0 0).
  - apply effects_emit; [apply (Hlog r t Ht)|reflexivity|reflexivity].
  - intros _. destruct (negb (success r)).
    + apply effects_emit; [apply Herror|reflexivity|reflexivity].
    + apply effects_quiet. reflexivity.
Qed.

Lemma effects_audioStep (host : Host) (outputDir base : jsstring) (ep : PodcastEpisode) :
  callSanitizeFilename host (title ep) = Ok base ->
  effects (audioStep host (audioDirOf host outputDir) base ep)
    (bounded (episodeEvent host outputDir ep) 1).
Proof.
  intros Hbase. unfold audioStep. destruct (truthy (audioUrl ep)) eqn:Hurl.
  - apply (effects_report host (audioUrl ep)
             (join host (audioDirOf host outputDir) (base ++ str ".mp3"))
             (fun r => str "Audio download " ++ outcomeWord r ++ str ": ")
             (fun r => str "Error downloading audio: " ++ optionalText (error r))).
    + apply EpFetchAudio, Hurl.
    + intros data. apply EpWriteAudio, Hbase.
    + intros r t Ht. rewrite <- !app_assoc. apply EpAudioReport, Ht.
    + intros r. apply EpAudioError.
  - apply effects_quiet. reflexivity.
Qed.

Lemma effects_imageStep (host : Host) (outputDir base : jsstring) (ep : PodcastEpisode) :
  callSanitizeFilename host (title ep) = Ok base ->
  effects (imageStep host (imageDirOf host outputDir) base ep)
    (bounded (episodeEvent host outputDir ep) 1).
Proof.
  intros Hbase. unfold imageStep. destruct (truthy (imageUrl ep)) eqn:Hurl.
  - apply effects_bind_liftR. intros ext Hext.
    apply (effects_report host (imageUrl ep)
             (join host (imageDirOf host outputDir) (base ++ str "." ++ ext))
             (fun r => str "Image download " ++ outcomeWord r ++ str ": ")
             (fun r => str "Error downloading image: " ++ optionalText (error r))).
    + apply EpFetchImage, Hurl.
    + intros data. apply EpWriteImage; assumption.
    + intros r t Ht. rewrite <- !app_assoc. apply EpImageReport, Ht.
    + intros r. apply EpImageError.
  - apply effects_quiet. reflexivity.
Qed.

Lemma effects_metadataStep (host : Host) (outputDir base : jsstring)
    (ep : PodcastEpisode) :
  callSanitizeFilename host (title ep) = Ok base ->
  effects (metadataStep host (jsonDirOf host outputDir) base ep)
    (bounded (episodeEvent host outputDir ep) 0).
Proof.
  intros Hbase. unfold metadataStep.
  apply (effects_bind _ _ _ 0 0).
  - apply effects_writeTextFile, EpWriteJson, Hbase.
  - intros _. apply effects_bind_liftR. intros line Hline.
    destruct (template_completes _ _ _ Hline) as (t & Ht & ->).
    apply effects_emit; [apply EpSaved, Ht|reflexivity|reflexivity].
Qed.

Lemma effects_processEpisode (host : Host) (outputDir : jsstring) (ep : PodcastEpisode) :
  effects (processEpisode host (audioDirOf host outputDir) (imageDirOf host outputDir)
             (jsonDirOf host outputDir) ep)
    (bounded (episodeEvent host outputDir ep) 2).
Proof.
  unfold processEpisode.
  apply effects_bind_liftR. intros line Hline.
  destruct (template_completes _ _ _ Hline) as (t & Ht & ->).
  apply (effects_bind _ _ _ 0 2).
  { apply effects_emit; [apply EpProcessing, Ht|reflexivity|reflexivity]. }
  intros _. apply effects_bind_liftR. intros base Hbase.
  apply (effects_bind _ _ _ 1 1); [apply effects_audioStep, Hbase|].
  intros _. apply (effects_bind _ _ _ 1 0); [apply effects_imageStep, Hbase|].
  intros _. apply effects_metadataStep, Hbase.
Qed.

(** No event of an episode is a closing line. *)
Lemma episodeEvent_not_closing (host : Host) (outputDir : jsstring)
    (ep : PodcastEpisode) (ev : Event) :
  episodeEvent host outputDir ep ev -> ~ closingLine ev.
Proof.
  intros Hev [Hdone | [e Hfatal]]; destruct Hev; discriminate.
Qed.

Lemma bodyEvent_not_closing (host : Host) (rssUrl outputDir : jsstring)
    (episodes : list PodcastEpisode) (ev : Event) :
  bodyEvent host rssUrl outputDir episodes ev -> ~ closingLine ev.
Proof.
  intros [ | | | | ep ev' _ Hev]; try (intros [H | [e H]]; discriminate H).
  exact (episodeEvent_not_closing host outputDir ep ev' Hev).
Qed.

(** The files an episode is written to are those of the run's tree. *)
Lemma episodeEvent_path (host : Host) (outputDir path : jsstring)
    (ep : PodcastEpisode) (ev : Event) :
  episodeEvent host outputDir ep ev ->
  writePath ev = Some path ->
  managedPath host outputDir path.
Proof.
  intros Hev Hpath.
  destruct Hev as [ Hurl | Hurl | base data Hbase | base ext data Hbase Hext
                  | base Hbase | | | | | | ];
    try discriminate Hpath; injection Hpath as <-; exists base;
    (split; [exact (sanitized_base_is_safe host _ base Hbase)|]); auto.
  right. left. exists ext.
  destruct (imageExtension_shape _ _ Hext). auto.
Qed.

Lemma directories_ready_or_not (host : Host) (w : World) (outputDir : jsstring) :
  directoriesReady host w outputDir
  \/ exists (e : Thrown) (created : list Event),
       directoryFailure host w outputDir e created
       /\ Forall (fun ev => exists dir, ev = EvEnsureDir dir
                            /\ (dir = audioDirOf host outputDir
                                \/ dir = imageDirOf host outputDir)) created.
Proof.
  destruct (ensureDirError host (trace w) (audioDirOf host outputDir)) as [e|] eqn:Ha.
  { right. exists e, []. split; [apply AudioDirFails, Ha|constructor]. }
  destruct (ensureDirError host (trace w ++ [EvEnsureDir (audioDirOf host outputDir)])
              (imageDirOf host outputDir)) as [e|] eqn:Hi.
  { right. exists e, [EvEnsureDir (audioDirOf host outputDir)].
    split; [apply ImageDirFails; assumption|]. repeat constructor. eauto. }
  destruct (ensureDirError host
              (trace w ++ [EvEnsureDir (audioDirOf host outputDir);
                           EvEnsureDir (imageDirOf host outputDir)])
              (jsonDirOf host outputDir)) as [e|] eqn:Hj.
  { right. exists e, [EvEnsureDir (audioDirOf host outputDir);
                      EvEnsureDir (imageDirOf host outputDir)].
    split; [apply JsonDirFails; assumption|]. repeat constructor; eauto. }
  left. repeat split; assumption.
Qed.

Lemma replay_without_writes (events : list Event) (files : gmap jsstring FileData) :
  Forall (fun ev => writePath ev = None) events -> replay events files = files.
Proof.
  intros Hall. revert files. induction Hall as [|ev events Hev _ IH]; intros files.
  - reflexivity.
  - cbn. change (fold_left applyWrite events (applyWrite files ev))
      with (replay events (applyWrite files ev)).
    rewrite IH. destruct ev; try discriminate Hev; reflexivity.
Qed.

(** A path keeps its content unless one of the events writes to it. *)
Lemma replay_lookup (events : list Event) (files : gmap jsstring FileData)
    (path : jsstring) :
  replay events files !! path = files !! path
  \/ Exists (fun ev => writePath ev = Some path) events.
Proof.
  revert files. induction events as [|ev events IH]; intros files.
  - left. reflexivity.
  - cbn. change (fold_left applyWrite events (applyWrite files ev))
      with (replay events (applyWrite files ev)).
    destruct (decide (writePath ev = Some path)) as [Hev|Hev].
    + right. constructor. exact Hev.
    + destruct (IH (applyWrite files ev)) as [Hsame|Hlater].
      * left. rewrite Hsame.
        destruct ev; try reflexivity; cbn in Hev |- *;
          apply lookup_insert_ne; congruence.
      * right. apply Exists_cons_tl. exact Hlater.
Qed.

Lemma setup_bounded (host : Host) (rssUrl outputDir : jsstring)
    (episodes : list PodcastEpisode) :
  bounded (bodyEvent host rssUrl outputDir episodes) 1
    (setupEvents host rssUrl outputDir).
Proof.
  split; [|unfold fetchCount; simpl; lia].
  unfold setupEvents. repeat constructor.
Qed.

(** The events of a run: what each of them is, how many are requests, and
    the line that closes it. *)
Lemma backupPodcast_events (host : Host) (rssUrl outputDir : jsstring) (w : World) :
  exists (events : list Event) (closing : Event),
    trace (snd (backupPodcast host rssUrl outputDir w)) = trace w ++ events ++ [closing]
    /\ written (snd (backupPodcast host rssUrl outputDir w))
       = replay events (written w)
    /\ bounded (bodyEvent host rssUrl outputDir (parsedEpisodes host w rssUrl outputDir))
         (1 + 2 * length (parsedEpisodes host w rssUrl outputDir)) events
    /\ closingLine closing.
Proof.
  assert (Hstop : forall (e : Thrown) (episodes : list PodcastEpisode),
    exists (events : list Event) (closing : Event),
      trace (snd (Ok tt, logged (extend w (setupEvents host rssUrl outputDir))
                           (fatalLog e)))
      = trace w ++ events ++ [closing]
      /\ written (snd (Ok tt, logged (extend w (setupEvents host rssUrl outputDir))
                                (fatalLog e)))
         = replay events (written w)
      /\ bounded (bodyEvent host rssUrl outputDir episodes)
           (1 + 2 * length episodes) events
      /\ closingLine closing).
  { intros e episodes. exists (setupEvents host rssUrl outputDir), (fatalLog e).
    cbn [snd logged extend trace written]. rewrite <- app_assoc.
    split; [reflexivity|]. split; [reflexivity|]. split.
    - apply (bounded_more _ 1); [lia|apply setup_bounded].
    - right. exists e. reflexivity. }
  destruct (directories_ready_or_not host w outputDir)
    as [Hready | (e & created & Hfail & Hcreated)].
  - rewrite (backupPodcast_setup host rssUrl outputDir w Hready). cbn zeta.
    unfold parsedEpisodes.
    destruct (feedResponse host w rssUrl outputDir) as [response|e];
      [destruct (text response) as [xml|e];
       [destruct (parseRSSFeed host xml) as [episodes|e]|]|];
      try apply Hstop.
    destruct (effects_forEach_in episodes
                (processEpisode host (audioDirOf host outputDir)
                   (imageDirOf host outputDir) (jsonDirOf host outputDir))
                (bodyEvent host rssUrl outputDir episodes) 2
                (fun ep Hin =>
                   effects_weaken_bounded _ _ _ 2
                     (fun ev => RunEpisode host rssUrl outputDir episodes ep ev Hin)
                     (effects_processEpisode host outputDir ep))
                (extend w (setupEvents host rssUrl outputDir)))
      as (events & Ht & Hw & Hall & Hn).
    exists (setupEvents host rssUrl outputDir ++ events).
    unfold tryCatch, bind, consoleLog, consoleError, emit.
    destruct (forEach episodes _ _) as [[[]|e] w1]; cbn [snd trace written] in *;
      [exists (EvLog [completionMessage])|exists (fatalLog e)];
      rewrite Ht, Hw; cbn [extend trace written]; rewrite <- !app_assoc;
      (split; [reflexivity|]); (split; [reflexivity|]);
      (split; [|unfold closingLine; eauto]);
      (apply bounded_app; [apply setup_bounded|]);
      (split; [exact Hall|lia]).
  - rewrite (backupPodcast_directory_failure host rssUrl outputDir w e created Hfail).
    exists created, (fatalLog e). cbn [snd extend trace written].
    split; [reflexivity|]. split; [|split; [|right; exists e; reflexivity]].
    + symmetry. apply replay_without_writes.
      eapply Forall_impl; [exact Hcreated|].
      intros ev (dir & -> & _). reflexivity.
    + apply (bounded_more _ 0); [lia|]. split.
      * eapply Forall_impl; [exact Hcreated|].
        intros ev (dir & -> & [-> | ->]); constructor.
      * clear Hfail. induction Hcreated as [|ev created (dir & -> & _) _ IH];
          [apply le_n|exact IH].
Qed.



(** X10. A run leaves every file outside its own tree as it was: a path
    whose content differs after the run is [audio/<base>.mp3],
    [images/<base>.<ext>] or [json/<base>.json] under the output directory,
    for a sanitized base name. *)
Theorem backupPodcast_keeps_other_files
    (host : Host) (rssUrl outputDir : jsstring) (w : World) (path : jsstring) :
  written (snd (backupPodcast host rssUrl outputDir w)) !! path = written w !! path
  \/ managedPath host outputDir path.
Proof.
  destruct (backupPodcast_events host rssUrl outputDir w)
    as (events & closing & _ & Hw & [Hall _] & _).
  rewrite Hw. destruct (replay_lookup events (written w) path) as [Hsame|Hwrite];
    [left; exact Hsame|right].
  apply Exists_exists in Hwrite. destruct Hwrite as (ev & Hin & Hpath).
  rewrite Forall_forall in Hall. specialize (Hall ev Hin).
  destruct Hall as [ | | | | ep ev _ Hev]; try discriminate Hpath.
  exact (episodeEvent_path host outputDir path ep ev Hev Hpath).
Qed.

(** X11. Every run closes with exactly one line, the completion line or the
    fatal-error line: it is the last thing the run does, and nothing the run
    does before it is a closing line, so the two never appear together. *)
Theorem backupPodcast_closes_once
    (host : Host) (rssUrl outputDir : jsstring) (w : World) :
  exists (events : list Event) (closing : Event),
    trace (snd (backupPodcast host rssUrl outputDir w)) = trace w ++ events ++ [closing]
    /\ closingLine closing
    /\ Forall (fun ev => ~ closingLine ev) events.
Proof.
  destruct (backupPodcast_events host rssUrl outputDir w)
    as (events & closing & Ht & _ & [Hall _] & Hlast).
  exists events, closing. split; [exact Ht|]. split; [exact Hlast|].
  eapply Forall_impl; [exact Hall|].
  intros ev. apply bodyEvent_not_closing.
Qed.

(** X12. When one of the three directories cannot be created, the run ends
    with the fatal-error line right after the directories created so far:
    the feed is never requested and no file is written. *)
Theorem directory_failure_ends_the_run
    (host : Host) (rssUrl outputDir : jsstring) (w : World)
    (e : Thrown) (created : list Event) :
  directoryFailure host w outputDir e created ->
  backupPodcast host rssUrl outputDir w = (Ok tt, extend w (created ++ [fatalLog e]))
  /\ fetchCount (created ++ [fatalLog e]) = 0%nat
  /\ written (snd (backupPodcast host rssUrl outputDir w)) = written w.
Proof.
  intros Hfail.
  rewrite (backupPodcast_directory_failure host rssUrl outputDir w e created Hfail).
  split; [reflexivity|]. split; [|reflexivity].
  destruct Hfail; reflexivity.
Qed.

Lemma directory_failure_ends_the_run_witness :
  directoryFailure noImageDirHost emptyWorld (str "out")
    (ErrorObject (str "Permission denied")) [EvEnsureDir (str "out/audio")]
  /\ backupPodcast noImageDirHost (str "https://example.org/feed") (str "out") emptyWorld
     = (Ok tt, extend emptyWorld
                 ([EvEnsureDir (str "out/audio")]
                  ++ [fatalLog (ErrorObject (str "Permission denied"))])).
Proof.
  assert (Hfail : directoryFailure noImageDirHost emptyWorld (str "out")
                    (ErrorObject (str "Permission denied"))
                    [EvEnsureDir (str "out/audio")]).
  { apply (ImageDirFails noImageDirHost emptyWorld (str "out")); reflexivity. }
  split; [exact Hfail|].
  exact (proj1 (directory_failure_ends_the_run noImageDirHost
                  (str "https://example.org/feed") (str "out") emptyWorld _ _ Hfail)).
Defined.

Lemma forEach_app {A} (xs ys : list A) (body : A -> M unit) (w w1 : World) :
  forEach xs body w = (Ok tt, w1) ->
  forEach (xs ++ ys) body w = forEach ys body w1.
Proof.
  revert w. induction xs as [|x xs IH]; intros w Hxs.
  - injection Hxs as <-. reflexivity.
  - cbn [forEach app] in *. unfold bind in *.
    destruct (body x w) as [[[]|e] w2]; [|discriminate Hxs].
    apply IH, Hxs.
Qed.

(** X13. An episode whose title is not a string (the item has no title, or
    the XML layer revived it as a number or handed over an object) stops
    the run.  When the title can be converted to a string, the run prints
    the processing line with that string, as [Number::toString] or
    [String] give it, and then the fatal-error line with the TypeError of
    [filename.replace]; when the conversion itself throws, the fatal-error
    line carries that TypeError and no processing line is printed.  Either
    way nothing is requested or written for the episode, and the episodes
    after it are never processed. *)
Theorem episode_without_text_title_stops_the_run
    (host : Host) (rssUrl outputDir : jsstring) (w w1 : World) (xml : jsstring)
    (before after : list PodcastEpisode) (ep : PodcastEpisode) :
  feedDelivered host w rssUrl outputDir xml ->
  parseRSSFeed host xml = Ok (before ++ ep :: after) ->
  (forall s : jsstring, title ep <> JStr s) ->
  forEach before
    (processEpisode host (audioDirOf host outputDir) (imageDirOf host outputDir)
       (jsonDirOf host outputDir))
    (extend w (setupEvents host rssUrl outputDir)) = (Ok tt, w1) ->
  match ToString (title ep) with
  | Ok t =>
      exists e : Thrown,
        callSanitizeFilename host (title ep) = Throw e
        /\ backupPodcast host rssUrl outputDir w
           = (Ok tt, extend w1 [EvLog [str "Processing episode: " ++ t]; fatalLog e])
  | Throw e =>
      backupPodcast host rssUrl outputDir w = (Ok tt, extend w1 [fatalLog e])
  end.
Proof.
  intros Hfeed Hparse Htitle Hbefore.
  assert (Hthrow : exists e, callSanitizeFilename host (title ep) = Throw e).
  { destruct (title ep) as [| | | |s| |]; cbn; eauto. destruct (Htitle s eq_refl). }
  destruct Hthrow as [e He].
  destruct (forEach (before ++ ep :: after)
              (processEpisode host (audioDirOf host outputDir)
                 (imageDirOf host outputDir) (jsonDirOf host outputDir))
              (extend w (setupEvents host rssUrl outputDir))) as [r w2] eqn:Hloop.
  rewrite (backupPodcast_loop host rssUrl outputDir xml w w2 _ r Hfeed Hparse Hloop).
  rewrite (forEach_app before (ep :: after) _ _ w1 Hbefore) in Hloop.
  cbn [forEach] in Hloop. unfold bind at 1, processEpisode at 1 in Hloop.
  unfold bind at 1, liftR at 1, template in Hloop.
  destruct (ToString (title ep)) as [t|e']; cbn [rbind] in Hloop.
  - exists e. split; [exact He|].
    unfold bind at 1, consoleLog, emit in Hloop.
    unfold bind at 1, liftR in Hloop. rewrite He in Hloop.
    injection Hloop as <- <-. unfold logged, extend. cbn [trace written].
    rewrite <- app_assoc. reflexivity.
  - injection Hloop as <- <-. reflexivity.
Qed.

Lemma episode_without_text_title_stops_the_run_witness :
  (exists e : Thrown,
     callSanitizeFilename numberTitleHost (title hugeNumberEpisode) = Throw e
     /\ backupPodcast numberTitleHost (str "https://example.org/feed") (str "out")
          emptyWorld
        = (Ok tt,
           extend
             (extend emptyWorld
                (setupEvents numberTitleHost (str "https://example.org/feed")
                   (str "out")))
             [EvLog [str "Processing episode: " ++ str "1e+21"]; fatalLog e]))
  /\ trace (snd (backupPodcast opaqueTitleHost (str "https://example.org/feed")
                   (str "out") emptyWorld))
     = trace (snd (forEach [firstEpisode]
                     (processEpisode opaqueTitleHost
                        (audioDirOf opaqueTitleHost (str "out"))
                        (imageDirOf opaqueTitleHost (str "out"))
                        (jsonDirOf opaqueTitleHost (str "out")))
                     (extend emptyWorld
                        (setupEvents opaqueTitleHost (str "https://example.org/feed")
                           (str "out")))))
       ++ [fatalLog (TypeError (str "Cannot convert object to primitive value"))].
Proof.
  split.
  - apply (episode_without_text_title_stops_the_run numberTitleHost
             (str "https://example.org/feed") (str "out") emptyWorld _ [1; 2; 3]
             [] [secondEpisode] hugeNumberEpisode).
    + split; [repeat split|]. exists (okResponse [1; 2; 3]). split; reflexivity.
    + vm_compute. reflexivity.
    + intros s H. discriminate H.
    + reflexivity.
  - rewrite (episode_without_text_title_stops_the_run opaqueTitleHost
               (str "https://example.org/feed") (str "out") emptyWorld
               (snd (forEach [firstEpisode]
                       (processEpisode opaqueTitleHost
                          (audioDirOf opaqueTitleHost (str "out"))
                          (imageDirOf opaqueTitleHost (str "out"))
                          (jsonDirOf opaqueTitleHost (str "out")))
                       (extend emptyWorld
                          (setupEvents opaqueTitleHost (str "https://example.org/feed")
                             (str "out")))))
               [1; 2; 3] [firstEpisode] [] opaqueTitleEpisode).
    + reflexivity.
    + split; [repeat split|]. exists (okResponse [1; 2; 3]). split; reflexivity.
    + vm_compute. reflexivity.
    + intros s H. discriminate H.
    + vm_compute. reflexivity.
Defined.

(** ** The files after a run *)

Lemma replay_lookup_last (events : list Event) (files : gmap jsstring FileData)
    (path : jsstring) :
  replay events files !! path
  = match lastWriteTo path events with
    | Some data => Some data
    | None => files !! path
    end.
Proof.
  revert files. induction events as [|ev events IH]; intros files; [reflexivity|].
  cbn [lastWriteTo]. change (replay (ev :: events) files)
    with (replay events (applyWrite files ev)).
  rewrite IH. destruct (lastWriteTo path events) as [data|]; [reflexivity|].
  destruct (decide (writePath ev = Some path)) as [Hev|Hev].
  - destruct ev; try discriminate Hev; injection Hev as ->; cbn;
      apply lookup_insert_eq.
  - destruct ev; try reflexivity; cbn in Hev |- *;
      apply lookup_insert_ne; congruence.
Qed.

Lemma textWrites_cons (ev : Event) (events : list Event) :
  textWrites (ev :: events)
  = if isTextWrite ev then ev :: textWrites events else textWrites events.
Proof. destruct ev; reflexivity. Qed.

Lemma lastWriteTo_none (path : jsstring) (events : list Event) :
  (forall ev, In ev events -> writePath ev = Some path -> isTextWrite ev = true) ->
  Forall (fun ev => writePath ev <> Some path) (textWrites events) ->
  lastWriteTo path events = None.
Proof.
  induction events as [|ev events IH]; intros Honly Hnone; [reflexivity|].
  rewrite textWrites_cons in Hnone. cbn [lastWriteTo]. rewrite IH.
  - destruct (decide (writePath ev = Some path)) as [Hev|Hev]; [|reflexivity].
    rewrite (Honly ev (or_introl eq_refl) Hev) in Hnone.
    apply Forall_cons in Hnone. destruct Hnone as [Hne _]. contradiction.
  - intros ev' Hin. apply Honly. right. exact Hin.
  - destruct (isTextWrite ev); [|exact Hnone].
    apply Forall_cons in Hnone. tauto.
Qed.

Lemma lastWriteTo_text (path data : jsstring) (events earlier later : list Event) :
  (forall ev, In ev events -> writePath ev = Some path -> isTextWrite ev = true) ->
  textWrites events = earlier ++ EvWriteTextFile path data :: later ->
  Forall (fun ev => writePath ev <> Some path) later ->
  lastWriteTo path events = Some (Text data).
Proof.
  revert earlier. induction events as [|ev events IH]; intros earlier Honly Hwrites Hlater.
  - destruct earlier; discriminate Hwrites.
  - assert (Honly' : forall ev', In ev' events -> writePath ev' = Some path ->
                                 isTextWrite ev' = true).
    { intros ev' Hin. apply Honly. right. exact Hin. }
    cbn [lastWriteTo]. rewrite textWrites_cons in Hwrites.
    destruct (isTextWrite ev) eqn:Htext.
    + destruct earlier as [|first earlier]; cbn [app] in Hwrites.
      * injection Hwrites as -> Hrest.
        rewrite (lastWriteTo_none path events Honly');
          [|rewrite Hrest; exact Hlater].
        cbn. destruct (decide (Some path = Some path)); [reflexivity|congruence].
      * injection Hwrites as _ Hrest.
        rewrite (IH earlier Honly' Hrest Hlater). reflexivity.
    + rewrite (IH earlier Honly' Hwrites Hlater). reflexivity.
Qed.

(** The loop over episodes with text fields, when the sidecars are
    accepted: it completes, its events are those of a run, and the text
    writes among them are the sidecars in feed order. *)
Lemma loop_writes (host : Host) (outputDir : jsstring)
    (episodes : list PodcastEpisode) (w : World) :
  Forall (fun ep => hasTextFields ep = true) episodes ->
  acceptsTextWrites host ->
  exists (w' : World) (events : list Event),
    forEach episodes
      (processEpisode host (audioDirOf host outputDir) (imageDirOf host outputDir)
         (jsonDirOf host outputDir)) w = (Ok tt, w')
    /\ trace w' = trace w ++ events
    /\ written w' = replay events (written w)
    /\ Forall (fun ev => exists ep, episodeEvent host outputDir ep ev) events
    /\ textWrites events = map (metadataWrite host outputDir) episodes.
Proof.
  intros Hfields Haccepts.
  destruct (forEach_completes host outputDir episodes w Hfields Haccepts)
    as (w' & events & Hloop & Ht & Hwrites & _).
  destruct (effects_forEach episodes
              (processEpisode host (audioDirOf host outputDir)
                 (imageDirOf host outputDir) (jsonDirOf host outputDir))
              (fun ev => exists ep, episodeEvent host outputDir ep ev) 2
              (fun ep =>
                 effects_weaken_bounded _ _ _ 2
                   (fun ev Hev => ex_intro _ ep Hev)
                   (effects_processEpisode host outputDir ep)) w)
    as (events' & Ht' & Hw' & Hall & _).
  rewrite Hloop in Ht', Hw'. cbn [snd] in Ht', Hw'.
  rewrite Ht in Ht'. apply app_inv_head in Ht'. subst events'.
  exists w', events. auto.
Qed.

Lemma baseFilenameOf_safe (host : Host) (ep : PodcastEpisode) :
  matchesSafePattern (baseFilenameOf host ep) = true.
Proof.
  unfold baseFilenameOf. destruct (title ep); try reflexivity.
  rewrite sanitizeFilename_spec. apply specSanitize_safe.
Qed.

(** X14. After a run that gets through its episodes, the sidecar of an
    episode holds that episode's metadata as [JSON.stringify] printed it,
    provided no later episode of the feed has the same sidecar path: of the
    episodes whose titles sanitize to the same name, the last one overwrites
    the others. *)
Theorem last_episode_keeps_the_sidecar
    (host : Host) (rssUrl outputDir xml : jsstring) (w : World)
    (before after : list PodcastEpisode) (ep : PodcastEpisode) :
  feedDelivered host w rssUrl outputDir xml ->
  parseRSSFeed host xml = Ok (before ++ ep :: after) ->
  Forall (fun ep' => hasTextFields ep' = true) (before ++ ep :: after) ->
  acceptsTextWrites host ->
  keepsDirectoriesApart host outputDir ->
  Forall (fun ep' => jsonPathOf host outputDir ep' <> jsonPathOf host outputDir ep) after ->
  written (snd (backupPodcast host rssUrl outputDir w)) !! jsonPathOf host outputDir ep
  = Some (Text (JSON_stringify host (episodeObject ep))).
Proof.
  intros (Hdirs & response & Hfetch & Htext) Hparse Hfields Haccepts Hapart Hafter.
  rewrite (backupPodcast_setup host rssUrl outputDir w Hdirs). cbn zeta.
  rewrite Hfetch, Htext, Hparse.
  destruct (loop_writes host outputDir (before ++ ep :: after)
              (extend w (setupEvents host rssUrl outputDir)) Hfields Haccepts)
    as (w' & events & Hloop & _ & Hw' & Hall & Hwrites).
  unfold tryCatch, bind. rewrite Hloop. unfold consoleLog, emit.
  cbn [snd written]. rewrite Hw', replay_lookup_last.
  rewrite (lastWriteTo_text (jsonPathOf host outputDir ep)
             (JSON_stringify host (episodeObject ep)) events
             (map (metadataWrite host outputDir) before)
             (map (metadataWrite host outputDir) after)); [reflexivity| | |].
  - intros ev Hin Hpath. rewrite Forall_forall in Hall.
    specialize (Hall ev (proj2 (list_elem_of_In _ _) Hin)).
    pose proof (baseFilenameOf_safe host ep) as Hsafe.
    destruct Hall as [ep' Hev].
    destruct Hev as [ Hurl | Hurl | base data Hbase | base ext data Hbase Hext
                    | base Hbase | | | | | | ];
      try discriminate Hpath; try reflexivity; injection Hpath as Hpath;
      unfold jsonPathOf in Hpath;
      pose proof (sanitized_base_is_safe host _ base Hbase) as Hbase'.
    + destruct (Hapart (baseFilenameOf host ep) base [] Hsafe Hbase' (fun H => H))
        as [Hne _]. destruct (Hne (eq_sym Hpath)).
    + destruct (imageExtension_shape _ _ Hext) as [_ Hdot].
      destruct (Hapart (baseFilenameOf host ep) base ext Hsafe Hbase' Hdot)
        as [_ Hne']. destruct (Hne' (eq_sym Hpath)).
  - rewrite Hwrites, map_app. reflexivity.
  - apply Forall_map. eapply Forall_impl; [exact Hafter|].
    intros ep' Hne Hpath. cbn in Hpath. congruence.
Qed.

Lemma last_episode_keeps_the_sidecar_witness :
  written (snd (backupPodcast sameNameHost (str "https://example.org/feed") (str "out")
                  emptyWorld))
    !! jsonPathOf sameNameHost (str "out") shoutedEpisode
  = Some (Text (JSON_stringify sameNameHost (episodeObject shoutedEpisode)))
  /\ jsonPathOf sameNameHost (str "out") firstEpisode
     = jsonPathOf sameNameHost (str "out") shoutedEpisode.
Proof.
  split; [|reflexivity].
  apply (last_episode_keeps_the_sidecar sameNameHost (str "https://example.org/feed")
           (str "out") [1; 2; 3] emptyWorld [firstEpisode] [] shoutedEpisode).
  - split; [repeat split|]. exists (okResponse [1; 2; 3]). split; reflexivity.
  - vm_compute. reflexivity.
  - repeat constructor.
  - intros history path. reflexivity.
  - intros base base' ext _ _ _. split; cbn; intros H; discriminate H.
  - constructor.
Defined.

(** ** Running again *)

Lemma after_nil (w : World) : after w [] = w.
Proof. destruct w. unfold after. cbn. rewrite app_nil_r. reflexivity. Qed.

Lemma after_app (w : World) (events events' : list Event) :
  after (after w events) events' = after w (events ++ events').
Proof. unfold after. cbn. rewrite app_assoc, replay_app. reflexivity. Qed.

Lemma uniform_liftR {A} (r : result A) : uniform (liftR r).
Proof. exists r, []. intros w. rewrite after_nil. reflexivity. Qed.

Lemma uniform_ret {A} (a : A) : uniform (ret a).
Proof. exact (uniform_liftR (Ok a)). Qed.

Lemma uniform_throw {A} (e : Thrown) : uniform (@throw A e).
Proof. exact (uniform_liftR (Throw e)). Qed.

Lemma uniform_emit (e : Event) : writePath e = None -> uniform (emit e).
Proof.
  intros Hwrite. exists (Ok tt), [e]. intros w. unfold emit, after. cbn.
  destruct e; try discriminate Hwrite; reflexivity.
Qed.

Lemma uniform_bind {A B} (m : M A) (k : A -> M B) :
  uniform m -> (forall a : A, uniform (k a)) -> uniform (bind m k).
Proof.
  intros ([a|e] & events & Hm) Hk.
  - destruct (Hk a) as (r & events' & Hka). exists r, (events ++ events').
    intros w. unfold bind. rewrite Hm, Hka, after_app. reflexivity.
  - exists (Throw e), events. intros w. unfold bind. rewrite Hm. reflexivity.
Qed.

Lemma uniform_tryCatch {A} (body : M A) (handler : Thrown -> M A) :
  uniform body -> (forall e : Thrown, uniform (handler e)) ->
  uniform (tryCatch body handler).
Proof.
  intros ([a|e] & events & Hm) Hk.
  - exists (Ok a), events. intros w. unfold tryCatch. rewrite Hm. reflexivity.
  - destruct (Hk e) as (r & events' & Hke). exists r, (events ++ events').
    intros w. unfold tryCatch. rewrite Hm, Hke, after_app. reflexivity.
Qed.

Lemma uniform_forEach {A} (xs : list A) (body : A -> M unit) :
  (forall x : A, uniform (body x)) -> uniform (forEach xs body).
Proof.
  intros Hbody. induction xs as [|x xs IH]; cbn [forEach].
  - apply uniform_ret.
  - apply uniform_bind; [apply Hbody|intros _; exact IH].
Qed.

Section Stateless.

Variable host : Host.
Hypothesis Hstateless : stateless host.

Lemma uniform_fetch (url : jsval) : uniform (fetch host url).
Proof.
  exists (fetchOutcome host [] url), [EvFetch url]. intros w. unfold fetch.
  rewrite (proj1 Hstateless). reflexivity.
Qed.

Lemma uniform_writeFile (path : jsstring) (data : list N) :
  uniform (Deno_writeFile host path data).
Proof.
  destruct (writeFileError host [] path) as [e|] eqn:Herror.
  - exists (Throw e), []. intros w. unfold Deno_writeFile.
    rewrite (proj1 (proj2 Hstateless)), Herror, after_nil. reflexivity.
  - exists (Ok tt), [EvWriteFile path data]. intros w. unfold Deno_writeFile.
    rewrite (proj1 (proj2 Hstateless)), Herror. reflexivity.
Qed.

Lemma uniform_writeTextFile (path data : jsstring) :
  uniform (Deno_writeTextFile host path data).
Proof.
  destruct (writeTextFileError host [] path) as [e|] eqn:Herror.
  - exists (Throw e), []. intros w. unfold Deno_writeTextFile.
    rewrite (proj1 (proj2 (proj2 Hstateless))), Herror, after_nil. reflexivity.
  - exists (Ok tt), [EvWriteTextFile path data]. intros w. unfold Deno_writeTextFile.
    rewrite (proj1 (proj2 (proj2 Hstateless))), Herror. reflexivity.
Qed.

Lemma uniform_ensureDir (dir : jsstring) : uniform (ensureDir host dir).
Proof.
  destruct (ensureDirError host [] dir) as [e|] eqn:Herror.
  - exists (Throw e), []. intros w. unfold ensureDir.
    rewrite (proj2 (proj2 (proj2 Hstateless))), Herror, after_nil. reflexivity.
  - exists (Ok tt), [EvEnsureDir dir]. intros w. unfold ensureDir.
    rewrite (proj2 (proj2 (proj2 Hstateless))), Herror. reflexivity.
Qed.

Lemma uniform_console (args : list jsstring) :
  uniform (consoleLog args) /\ uniform (consoleError args).
Proof. split; apply uniform_emit; reflexivity. Qed.

Lemma uniform_downloadFile (url : jsval) (path : jsstring) :
  uniform (downloadFile host url path).
Proof.
  unfold downloadFile. apply uniform_tryCatch; [|intros e; apply uniform_ret].
  apply uniform_bind; [apply uniform_fetch|]. intros response.
  apply uniform_bind; [destruct (negb (ok response));
                       [apply uniform_throw|apply uniform_ret]|].
  intros _. apply uniform_bind; [apply uniform_liftR|]. intros data.
  apply uniform_bind; [apply uniform_writeFile|]. intros _. apply uniform_ret.
Qed.

Lemma uniform_report (url : jsval) (path : jsstring)
    (prefix errorLine : DownloadResult -> jsstring) (v : jsval) :
  uniform (r <- downloadFile host url path ;;
           line <- liftR (template (prefix r) v) ;;
           consoleLog [line] ;;
           if negb (success r) then consoleError [errorLine r] else ret tt).
Proof.
  apply uniform_bind; [apply uniform_downloadFile|]. intros r.
  apply uniform_bind; [apply uniform_liftR|]. intros line.
  apply uniform_bind; [apply uniform_console|]. intros _.
  destruct (negb (success r)); [apply uniform_console|apply uniform_ret].
Qed.

Lemma uniform_processEpisode (audioDir imageDir jsonDir : jsstring)
    (ep : PodcastEpisode) :
  uniform (processEpisode host audioDir imageDir jsonDir ep).
Proof.
  unfold processEpisode.
  apply uniform_bind; [apply uniform_liftR|]. intros line.
  apply uniform_bind; [apply uniform_console|]. intros _.
  apply uniform_bind; [apply uniform_liftR|]. intros base.
  apply uniform_bind.
  { unfold audioStep. destruct (truthy (audioUrl ep)); [|apply uniform_ret].
    apply (uniform_report (audioUrl ep) (join host audioDir (base ++ str ".mp3"))
             (fun r => str "Audio download " ++ outcomeWord r ++ str ": ")
             (fun r => str "Error downloading audio: " ++ optionalText (error r))). }
  intros _. apply uniform_bind.
  { unfold imageStep. destruct (truthy (imageUrl ep)); [|apply uniform_ret].
    apply uniform_bind; [apply uniform_liftR|]. intros ext.
    apply (uniform_report (imageUrl ep)
             (join host imageDir (base ++ str "." ++ ext))
             (fun r => str "Image download " ++ outcomeWord r ++ str ": ")
             (fun r => str "Error downloading image: " ++ optionalText (error r))). }
  intros _. unfold metadataStep.
  apply uniform_bind; [apply uniform_writeTextFile|]. intros _.
  apply uniform_bind; [apply uniform_liftR|]. intros line'. apply uniform_console.
Qed.

Lemma uniform_backupPodcast (rssUrl outputDir : jsstring) :
  uniform (backupPodcast host rssUrl outputDir).
Proof.
  unfold backupPodcast. cbn zeta.
  apply uniform_tryCatch; [|intros e; apply uniform_console].
  apply uniform_bind; [apply uniform_ensureDir|]. intros _.
  apply uniform_bind; [apply uniform_ensureDir|]. intros _.
  apply uniform_bind; [apply uniform_ensureDir|]. intros _.
  apply uniform_bind; [apply uniform_fetch|]. intros response.
  apply uniform_bind; [apply uniform_liftR|]. intros xml.
  apply uniform_bind; [apply uniform_liftR|]. intros episodes.
  apply uniform_bind; [|intros _; apply uniform_console].
  apply uniform_forEach. intros ep. apply uniform_processEpisode.
Qed.

End Stateless.

Lemma replay_twice (events : list Event) (files : gmap jsstring FileData) :
  replay events (replay events files) = replay events files.
Proof.
  apply map_eq. intros path. rewrite !replay_lookup_last.
  destruct (lastWriteTo path events); reflexivity.
Qed.

(** X15. The program keeps no record of what it has already fetched.  On a
    host whose network and file system answer the same way whatever has
    happened before, a run does the same things in whatever world it
    starts, and a second run repeats every request and every write of the
    first one and leaves the files exactly as the first run left them. *)
Theorem second_run_repeats_the_first (host : Host) (rssUrl outputDir : jsstring) :
  stateless host ->
  exists events : list Event,
    forall w : World,
      backupPodcast host rssUrl outputDir w = (Ok tt, after w events)
      /\ backupPodcast host rssUrl outputDir (after w events)
         = (Ok tt, {| trace := trace w ++ events ++ events;
                      written := written (after w events) |}).
Proof.
  intros Hstateless.
  destruct (uniform_backupPodcast host Hstateless rssUrl outputDir) as (r & events & Hrun).
  assert (Hr : r = Ok tt).
  { destruct (backupPodcast_completes host rssUrl outputDir emptyWorld) as [w' Hw'].
    rewrite Hrun in Hw'. congruence. }
  subst r. exists events. intros w. split; [apply Hrun|].
  rewrite Hrun, after_app. unfold after. cbn [trace written].
  rewrite replay_app, replay_twice. reflexivity.
Qed.

Lemma second_run_repeats_the_first_witness :
  exists events : list Event,
    forall w : World,
      backupPodcast twoItemHost (str "https://example.org/feed") (str "out") w
      = (Ok tt, after w events)
      /\ backupPodcast twoItemHost (str "https://example.org/feed") (str "out")
           (after w events)
         = (Ok tt, {| trace := trace w ++ events ++ events;
                      written := written (after w events) |}).
Proof.
  apply (second_run_repeats_the_first twoItemHost).
  repeat split.
Defined.
